(** * Steady-state ECS balance solver: [airplane_ECS_modelling.py]

    A shallow embedding of [ModelECS] and of the dense linear solve it
    relies on.  Python floats are modelled by exact rationals ([Qc]), so
    every statement below is a statement in exact arithmetic. *)

From Stdlib Require Import List ZArith QArith Qcanon Field Lia Lqa Permutation Bool.
From Stdlib Require Import Floats.
From Stdlib Require Qcabs Qround.
Import ListNotations.

Local Open Scope Qc_scope.

(** ** Vectors and matrices as numpy holds them: rows of numbers *)

Module LinAlg.

Definition vec := list Qc.
Definition matrix := list vec.

(** [np.zeros(n)] and [np.zeros((n, k))]. *)
Definition zeros (n : nat) : vec := repeat 0 n.
Definition zeros2 (n k : nat) : matrix := repeat (zeros k) n.

(** Item assignment [b[i] = v] and [A[i, j] = v].  The indices used by
    the program are literals inside the bounds; outside them numpy
    raises, which the update below does not model (it leaves the array
    unchanged). *)
Fixpoint upd {T : Type} (i : nat) (f : T -> T) (xs : list T) : list T :=
  match xs, i with
  | [], _ => []
  | x :: xs', O => f x :: xs'
  | x :: xs', S i' => x :: upd i' f xs'
  end.

Definition setv (b : vec) (i : nat) (v : Qc) : vec := upd i (fun _ => v) b.
Definition setm (A : matrix) (i j : nat) (v : Qc) : matrix :=
  upd i (fun row => setv row j v) A.

Definition coeff (A : matrix) (i j : nat) : Qc := nth j (nth i A []) 0.

Fixpoint dot (r v : vec) : Qc :=
  match r, v with
  | a :: r', b :: v' => a * b + dot r' v'
  | _, _ => 0
  end.

Definition matvec (A : matrix) (v : vec) : vec := map (fun r => dot r v) A.

Definition square (n : nat) (A : matrix) : Prop :=
  length A = n /\ Forall (fun r => length r = n) A.

(** A matrix is nonsingular when its kernel is trivial. *)
Definition nonsingular (A : matrix) : Prop :=
  forall u, length u = length A ->
            matvec A u = zeros (length A) -> u = zeros (length A).

(** *** The direct solver behind [np.linalg.solve]

    numpy is a library, not part of the program; its routine is
    LAPACK's [gesv], modelled here by what it computes in exact
    arithmetic: Gaussian elimination with partial pivoting (the row
    whose leading entry is largest in magnitude, the first such row on a
    tie), then back substitution.  It works on augmented rows
    [a_0 .. a_(n-1) | rhs] and fails when the best pivot is zero. *)

Definition Qc_abs_lt (a b : Qc) : bool :=
  match Qcabs.Qcabs a ?= Qcabs.Qcabs b with Lt => true | _ => false end.

Fixpoint pivot (r : vec) (rs : list vec) : vec * list vec :=
  match rs with
  | [] => (r, [])
  | r' :: rs' =>
      if Qc_abs_lt (hd 0 r) (hd 0 r')
      then let (p, o) := pivot r' rs' in (p, r :: o)
      else let (p, o) := pivot r rs' in (p, r' :: o)
  end.

(** [sub_scaled a t tp] is the row [t - a * tp]. *)
Fixpoint sub_scaled (a : Qc) (t tp : vec) : vec :=
  match t, tp with
  | x :: t', y :: tp' => (x - a * y) :: sub_scaled a t' tp'
  | _, _ => []
  end.

(** Eliminating the leading unknown of row [r] with pivot row [p]; the
    leading column, now zero, is dropped. *)
Definition eliminate (p r : vec) : vec :=
  sub_scaled (hd 0 r / hd 0 p) (tl r) (tl p).

Fixpoint gauss (n : nat) (rows : list vec) : option vec :=
  match n with
  | O => Some []
  | S n' =>
      match rows with
      | [] => None
      | r :: rs =>
          let (p, others) := pivot r rs in
          if Qc_eq_bool (hd 0 p) 0 then None
          else
            match gauss n' (map (eliminate p) others) with
            | None => None
            | Some xs => Some ((last p 0 - dot (tl p) xs) / hd 0 p :: xs)
            end
      end
  end.

Fixpoint augment (A : matrix) (b : vec) : list vec :=
  match A, b with
  | r :: A', c :: b' => (r ++ [c]) :: augment A' b'
  | _, _ => []
  end.

(** [solve A b]: [None] stands for [LinAlgError("Singular matrix")].
    This is the solve in exact arithmetic: it returns the exact solution
    and fails exactly on singular matrices, where binary64 LAPACK
    returns a rounded vector and fails on a pivot that rounds to zero.
    What is proved through it is proved of the exact reading of the
    program. *)
Definition solve (A : matrix) (b : vec) : option vec :=
  gauss (length A) (augment A b).

(** *** Vocabulary for the analysis of the solver *)

(** [n] augmented rows for [n] unknowns. *)
Definition shaped (n : nat) (rows : list vec) : Prop :=
  length rows = n /\ Forall (fun r => length r = S n) rows.

(** Row [r] holds of the augmented vector [z] (the unknowns followed by
    [-1], or by [0] for the homogeneous system). *)
Definition orth (z : vec) (r : vec) : Prop := dot r z = 0.

(** Vector addition, used only to compare two solutions. *)
Fixpoint vadd (x u : vec) : vec :=
  match x, u with
  | a :: x', b :: u' => (a + b) :: vadd x' u'
  | _, _ => []
  end.

End LinAlg.

(** ** The program *)

Module ECS.
Import LinAlg.

Definition num (z : Z) : Qc := Q2Qc (inject_Z z).

(** constants *)
Definition c : Qc := num 1000.        (* air specific heat J/kg K *)
Definition l : Qc := num 2496000.     (* latent heat J/kg *)

(** The collaborator [psychro]: only its humidity-ratio function [w]
    enters the balance; [chartA] is an effect recorded in the trace. *)
Record psychro := { psy_w : Qc -> Qc -> Qc }.

Record inputs := {
  m_fresh : Qc;   (* fresh air mass flow from ACM kg/s *)
  α : Qc;         (* mixing ratio *)
  θS : Qc;        (* supply air temperature *)
  θIsp : Qc;      (* indoor air temperature setpoint *)
  φIsp : Qc;      (* indoor relative humidity setpoint *)
  θ_turb : Qc;    (* air temperature after turbine *)
  φ_turb : Qc;    (* relative humidity after turbine *)
  θ_ext : Qc;     (* external air static temperature *)
  Qsa : Qc;       (* aux. sensible heat W *)
  Qla : Qc        (* aux. latent heat W *)
}.

(** *** Effects: exceptions and what reaches the console and the chart *)

Inductive error := ZeroDivisionError | LinAlgError.

(** What a [print] call is given; the text formatting (two decimals,
    column headers, the pandas display option set on line 107) is left
    to the reader of the trace. *)
Inductive printed :=
| Blank                                  (* print() *)
| PointsTable (t w : vec)                (* print(output): columns t, 1000*w *)
| DutiesTable (q : vec)                  (* print(Q.to_frame().T / 1000, 'kW') *)
| UALine (ua : Qc).                      (* print("UA:", round(UA, 0)) *)

Inductive event :=
| chartA (t w : vec) (A : list (list Z))
| print (p : printed).

(** A computation yields the events emitted so far and either the
    exception that stopped it or its value. *)
Definition io (T : Type) : Type := list event * (error + T).

Definition ret {T} (x : T) : io T := ([], inr x).
Definition raise {T} (e : error) : io T := ([], inl e).
Definition emit (e : event) : io unit := ([e], inr tt).
Definition bind {T U} (m : io T) (f : T -> io U) : io U :=
  match m with
  | (tr, inl e) => (tr, inl e)
  | (tr, inr x) => let (tr', r) := f x in (tr ++ tr', r)
  end.

Notation "x <- m ;; k" := (bind m (fun x => k))
  (at level 61, m at next level, right associativity).
Notation "m ;;; k" := (bind m (fun _ => k))
  (at level 61, right associativity).

(** Python's [/] on numbers. *)
Definition truediv (a b : Qc) : io Qc :=
  if Qc_eq_bool b 0 then raise ZeroDivisionError else ret (a / b).

(** [np.linalg.solve]. *)
Definition linalg_solve (A : matrix) (b : vec) : io vec :=
  match solve A b with
  | Some x => ret x
  | None => raise LinAlgError
  end.

(** The extended slice [x[start:stop:step]] for the non-negative bounds
    and positive step the program uses. *)
Definition slice (x : vec) (start stop step : nat) : vec :=
  map (fun j => nth j x 0)
      (filter (fun j => (start <=? j)%nat && ((j - start) mod step =? 0)%nat)
              (seq 0 (Nat.min stop (length x)))).

(** [round(q, 0)]: to the nearest whole number, ties to the even one. *)
Definition round0 (q : Qc) : Qc :=
  let f := Qround.Qfloor q in
  match q - num f ?= Q2Qc (1 # 2) with
  | Lt => num f
  | Gt => num (f + 1)
  | Eq => if Z.even f then num f else num (f + 1)
  end.

(** *** [ModelECS] *)

Definition Kt : Qc := num 10000000000.    (* controller gain *)
Definition Kw : Qc := num 10000000000.

(** Lines 60-80: the coefficients of the unknowns and the vector of
    inputs, written by item assignment in the order of the source. *)
Definition assemble (i : inputs) (m UA w_turb wIsp : Qc) : matrix * vec :=
  let A := zeros2 12 12 in
  let b := zeros 12 in
  (* MX mixing box *)
  let A := setm A 0 0 (m * c) in
  let A := setm A 0 6 (-(1 - α i) * m * c) in
  let b := setv b 0 (α i * m * c * θ_turb i) in
  let A := setm A 1 1 (m * l) in
  let A := setm A 1 7 (-(1 - α i) * m * l) in
  let b := setv b 1 (α i * m * l * w_turb) in
  (* HC heating coil *)
  let A := setm A 2 0 (m * c) in
  let A := setm A 2 2 (-m * c) in
  let A := setm A 2 8 1 in
  let b := setv b 2 0 in
  let A := setm A 3 1 (m * l) in
  let A := setm A 3 3 (-m * l) in
  let b := setv b 3 0 in
  (* VH vapor humidifier *)
  let A := setm A 4 2 (m * c) in
  let A := setm A 4 4 (-m * c) in
  let b := setv b 4 0 in
  let A := setm A 5 3 (m * l) in
  let A := setm A 5 5 (-m * l) in
  let A := setm A 5 9 1 in
  let b := setv b 5 0 in
  (* TZ thermal zone *)
  let A := setm A 6 4 (m * c) in
  let A := setm A 6 6 (-m * c) in
  let A := setm A 6 10 1 in
  let b := setv b 6 0 in
  let A := setm A 7 5 (m * l) in
  let A := setm A 7 7 (-m * l) in
  let A := setm A 7 11 1 in
  let b := setv b 7 0 in
  (* BL building *)
  let A := setm A 8 6 UA in
  let A := setm A 8 10 1 in
  let b := setv b 8 (UA * θ_ext i + Qsa i) in
  let A := setm A 9 7 0 in
  let A := setm A 9 11 1 in
  let b := setv b 9 (Qla i) in
  (* Kt indoor temperature controller *)
  let A := setm A 10 6 Kt in
  let A := setm A 10 8 1 in
  let b := setv b 10 (Kt * θIsp i) in
  (* Kw indoor humidity controller *)
  let A := setm A 11 7 Kw in
  let A := setm A 11 9 1 in
  let b := setv b 11 (Kw * wIsp) in
  (A, b).

(** The segment incidence handed to the chart (lines 85-88). *)
Definition incidence : list (list Z) :=
  [[-1; 1; 0; 0; -1];       (* MX *)
   [0; -1; 1; 0; 0];        (* HC *)
   [0; 0; -1; 1; 0];        (* VH *)
   [0; 0; 0; -1; 1]]%Z.     (* TZ *)

(** Lines 49-53: the derived scalars [m], [QsZ] and [UA]. *)
Definition derived (i : inputs) : io (Qc * Qc * Qc) :=
  m <- truediv (m_fresh i) (α i) ;;
  let QsZ := -m * c * (θS i - θIsp i) in
  UA <- truediv (QsZ - Qsa i) (θ_ext i - θIsp i) ;;
  ret (m, QsZ, UA).

Definition ModelECS (psy : psychro) (i : inputs) : io vec :=
  d <- derived i ;;
  let '(m, QsZ, UA) := d in
  let w_turb := psy_w psy (θ_turb i) (φ_turb i) in     (* hum. out *)
  let wIsp := psy_w psy (θIsp i) (φIsp i) in           (* hum. in set point *)
  (* Model *)
  let (A, b) := assemble i m UA w_turb wIsp in
  (* Solution *)
  x <- linalg_solve A b ;;
  let A := incidence in
  let t := θ_turb i :: slice x 0 8 2 in
  let w := w_turb :: slice x 1 8 2 in
  emit (chartA t w A) ;;;
  let w := map (fun v => num 1000 * v) w in
  emit (print Blank) ;;;
  emit (print (PointsTable t w)) ;;;
  let Q := skipn 8 x in
  emit (print Blank) ;;;
  emit (print (DutiesTable (map (fun v => v / num 1000) Q))) ;;;
  emit (print (UALine (round0 UA))) ;;;
  ret x.

(** *** The quantities the claims name, as functions of the inputs *)

(** [m], [QsZ] and [UA] of lines 49-53, with the field's total division
    (it agrees with [truediv] whenever [truediv] returns). *)
Definition m_of (i : inputs) : Qc := m_fresh i / α i.
Definition QsZ_of (i : inputs) : Qc := - m_of i * c * (θS i - θIsp i).
Definition UA_of (i : inputs) : Qc := (QsZ_of i - Qsa i) / (θ_ext i - θIsp i).
Definition w_turb_of (psy : psychro) (i : inputs) : Qc :=
  psy_w psy (θ_turb i) (φ_turb i).
Definition wIsp_of (psy : psychro) (i : inputs) : Qc :=
  psy_w psy (θIsp i) (φIsp i).

(** The assembled system of an input. *)
Definition system (psy : psychro) (i : inputs) : matrix * vec :=
  assemble i (m_of i) (UA_of i) (w_turb_of psy i) (wIsp_of psy i).
Definition ECS_A (psy : psychro) (i : inputs) : matrix := fst (system psy i).
Definition ECS_b (psy : psychro) (i : inputs) : vec := snd (system psy i).

(** Reading a finished run. *)
Definition trace {T} (r : io T) : list event := fst r.
Definition outcome {T} (r : io T) : error + T := snd r.

(** "Unknown [j] appears in row [k]": its coefficient is not zero. *)
Definition appears (A : matrix) (k j : nat) : Prop := coeff A k j <> 0.

(** Row [k] of the system [A x = b] read as an equation on [x]. *)
Definition row_holds (A : matrix) (b : vec) (k : nat) (x : vec) : Prop :=
  dot (nth k A []) x = nth k b 0.

(** *** Vocabulary of the claims *)

(** What a run emits once the solve has returned [x]. *)
Definition report (psy : psychro) (i : inputs) (x : vec) : list event :=
  let t := θ_turb i :: slice x 0 8 2 in
  let w := w_turb_of psy i :: slice x 1 8 2 in
  [chartA t w incidence;
   print Blank;
   print (PointsTable t (map (fun v => num 1000 * v) w));
   print Blank;
   print (DutiesTable (map (fun v => v / num 1000) (skipn 8 x)));
   print (UALine (round0 (UA_of i)))].

(** The events of a trace that are chart calls. *)
Definition is_chart (e : event) : bool :=
  match e with chartA _ _ _ => true | print _ => false end.

(** The twelve balance equations, written out on the twelve unknowns. *)
Definition balances (i : inputs) (m UA wt ws : Qc)
    (x0 x1 x2 x3 x4 x5 x6 x7 x8 x9 x10 x11 : Qc) : Prop :=
  (m * c * x0 - (1 - α i) * m * c * x6 = α i * m * c * θ_turb i /\
   m * l * x1 - (1 - α i) * m * l * x7 = α i * m * l * wt) /\
  (m * c * x0 - m * c * x2 + x8 = 0 /\
   m * l * x1 - m * l * x3 = 0) /\
  (m * c * x2 - m * c * x4 = 0 /\
   m * l * x3 - m * l * x5 + x9 = 0) /\
  (m * c * x4 - m * c * x6 + x10 = 0 /\
   m * l * x5 - m * l * x7 + x11 = 0) /\
  (UA * x6 + x10 = UA * θ_ext i + Qsa i /\
   x11 = Qla i) /\
  (Kt * x6 + x8 = Kt * θIsp i /\
   Kw * x7 + x9 = Kw * ws).

(** Whether the solve of the assembled system returns. *)
Definition solvable (psy : psychro) (i : inputs) : bool :=
  match solve (ECS_A psy i) (ECS_b psy i) with Some _ => true | None => false end.

(** The tolerance of the controller test and the duty it corresponds to
    under the gain 1e10. *)
Definition eps : Qc := Q2Qc (1 # 1000000).
Definition duty_limit : Qc := num 10000.

End ECS.

Import LinAlg ECS.

(** ** Sample inputs *)

(** A stand-in for [psy.w], linear in both arguments; it serves only to
    run the program on concrete inputs. *)
Definition psy_demo : psychro :=
  {| psy_w := fun t phi => phi * (num 6 + t) / num 2000 |}.

Definition frac (a b : Z) : Qc := Q2Qc (Qmake a (Z.to_pos b)).

(** The nominal operating point. *)
Definition nominal : inputs :=
  {| m_fresh := num 1; α := frac 1 2; θS := num 18; θIsp := num 24;
     φIsp := frac 1 2; θ_turb := num 5; φ_turb := frac 9 10;
     θ_ext := num 35; Qsa := num 500; Qla := num 200 |}.

(** The nominal point with twice the fresh air flow. *)
Definition heavy : inputs :=
  {| m_fresh := num 2; α := frac 1 2; θS := num 18; θIsp := num 24;
     φIsp := frac 1 2; θ_turb := num 5; φ_turb := frac 9 10;
     θ_ext := num 35; Qsa := num 500; Qla := num 200 |}.

(** The nominal point without recirculation and without auxiliary heat. *)
Definition no_recirc : inputs :=
  {| m_fresh := num 1; α := 1; θS := num 18; θIsp := num 24;
     φIsp := frac 1 2; θ_turb := num 5; φ_turb := frac 9 10;
     θ_ext := num 35; Qsa := 0; Qla := 0 |}.

(** The nominal point with a mixing ratio of zero. *)
Definition no_mixing : inputs :=
  {| m_fresh := num 1; α := 0; θS := num 18; θIsp := num 24;
     φIsp := frac 1 2; θ_turb := num 5; φ_turb := frac 9 10;
     θ_ext := num 35; Qsa := num 500; Qla := num 200 |}.

(** The nominal point with no fresh air at all: a singular system. *)
Definition stalled : inputs :=
  {| m_fresh := 0; α := frac 1 2; θS := num 18; θIsp := num 24;
     φIsp := frac 1 2; θ_turb := num 5; φ_turb := frac 9 10;
     θ_ext := num 35; Qsa := num 500; Qla := num 200 |}.

(** ** Vocabulary of the further properties *)

(** A second stand-in for [psy.w]: perfectly dry air. *)
Definition psy_dry : psychro := {| psy_w := fun _ _ => 0 |}.

(** The nominal point with another supply temperature, another external
    temperature and another auxiliary sensible heat. *)
Definition nominal_hot : inputs :=
  {| m_fresh := num 1; α := frac 1 2; θS := num 16; θIsp := num 24;
     φIsp := frac 1 2; θ_turb := num 5; φ_turb := frac 9 10;
     θ_ext := num 45; Qsa := num 900; Qla := num 200 |}.

(** The two quantities whose vanishing makes the system singular: the
    sum of the conductances acting on the zone-exit temperature, and its
    latent counterpart. *)
Definition sensible_pivot (i : inputs) : Qc := UA_of i + m_fresh i * c + Kt.
Definition latent_pivot (i : inputs) : Qc := m_fresh i * l + Kw.

(** The input with every constant term of the system set to zero; with
    the humidity ratios 0 it gives the homogeneous system. *)
Definition at_rest (i : inputs) : inputs :=
  {| m_fresh := m_fresh i; α := α i; θS := θS i; θIsp := 0; φIsp := φIsp i;
     θ_turb := 0; φ_turb := φ_turb i; θ_ext := 0; Qsa := 0; Qla := 0 |}.

(** ** The arithmetic of lines 49-80 in binary64

    The same lines as [derived] and [assemble], on the floating-point
    numbers Python computes with.  The solver is left open: any function
    of the assembled arrays. *)

Set Warnings "-inexact-float".

Module ECS64.
Import LinAlg.

Definition fvec := list float.
Definition fmatrix := list fvec.

(** constants *)
Definition c : float := 1e3.        (* air specific heat J/kg K *)
Definition l : float := 2496e3.     (* latent heat J/kg *)

Record psychro := { psy_w : float -> float -> float }.

Record inputs := {
  m_fresh : float; α : float; θS : float; θIsp : float; φIsp : float;
  θ_turb : float; φ_turb : float; θ_ext : float; Qsa : float; Qla : float
}.

(** Python's [/] on floats: a zero divisor of either sign raises. *)
Definition truediv (a b : float) : ECS.error + float :=
  if (b =? 0)%float then inl ECS.ZeroDivisionError else inr (a / b)%float.

Definition zeros (n : nat) : fvec := repeat 0%float n.
Definition zeros2 (n k : nat) : fmatrix := repeat (zeros k) n.
Definition setv (b : fvec) (i : nat) (v : float) : fvec := upd i (fun _ => v) b.
Definition setm (A : fmatrix) (i j : nat) (v : float) : fmatrix :=
  upd i (fun row => setv row j v) A.

Definition Kt : float := 1e10.      (* controller gain *)
Definition Kw : float := 1e10.

(** Lines 49-53. *)
Definition derived (i : inputs) : ECS.error + (float * float * float) :=
  match truediv (m_fresh i) (α i) with
  | inl e => inl e
  | inr m =>
      let QsZ := (- m * c * (θS i - θIsp i))%float in
      match truediv (QsZ - Qsa i)%float (θ_ext i - θIsp i)%float with
      | inl e => inl e
      | inr UA => inr (m, QsZ, UA)
      end
  end.

(** Lines 60-80. *)
Definition assemble (i : inputs) (m UA w_turb wIsp : float) : fmatrix * fvec :=
  let A := zeros2 12 12 in
  let b := zeros 12 in
  (* MX mixing box *)
  let A := setm A 0 0 (m * c)%float in
  let A := setm A 0 6 (- (1 - α i) * m * c)%float in
  let b := setv b 0 (α i * m * c * θ_turb i)%float in
  let A := setm A 1 1 (m * l)%float in
  let A := setm A 1 7 (- (1 - α i) * m * l)%float in
  let b := setv b 1 (α i * m * l * w_turb)%float in
  (* HC heating coil *)
  let A := setm A 2 0 (m * c)%float in
  let A := setm A 2 2 (- m * c)%float in
  let A := setm A 2 8 1%float in
  let b := setv b 2 0%float in
  let A := setm A 3 1 (m * l)%float in
  let A := setm A 3 3 (- m * l)%float in
  let b := setv b 3 0%float in
  (* VH vapor humidifier *)
  let A := setm A 4 2 (m * c)%float in
  let A := setm A 4 4 (- m * c)%float in
  let b := setv b 4 0%float in
  let A := setm A 5 3 (m * l)%float in
  let A := setm A 5 5 (- m * l)%float in
  let A := setm A 5 9 1%float in
  let b := setv b 5 0%float in
  (* TZ thermal zone *)
  let A := setm A 6 4 (m * c)%float in
  let A := setm A 6 6 (- m * c)%float in
  let A := setm A 6 10 1%float in
  let b := setv b 6 0%float in
  let A := setm A 7 5 (m * l)%float in
  let A := setm A 7 7 (- m * l)%float in
  let A := setm A 7 11 1%float in
  let b := setv b 7 0%float in
  (* BL building *)
  let A := setm A 8 6 UA in
  let A := setm A 8 10 1%float in
  let b := setv b 8 (UA * θ_ext i + Qsa i)%float in
  let A := setm A 9 7 0%float in
  let A := setm A 9 11 1%float in
  let b := setv b 9 (Qla i) in
  (* Kt indoor temperature controller *)
  let A := setm A 10 6 Kt in
  let A := setm A 10 8 1%float in
  let b := setv b 10 (Kt * θIsp i)%float in
  (* Kw indoor humidity controller *)
  let A := setm A 11 7 Kw in
  let A := setm A 11 9 1%float in
  let b := setv b 11 (Kw * wIsp)%float in
  (A, b).

(** The arrays handed to the solver on line 83. *)
Definition system (psy : psychro) (i : inputs)
  : ECS.error + (fmatrix * fvec) :=
  match derived i with
  | inl e => inl e
  | inr (m, _, UA) =>
      inr (assemble i m UA (psy_w psy (θ_turb i) (φ_turb i))
                    (psy_w psy (θIsp i) (φIsp i)))
  end.

(** [np.linalg.solve] as a function of its two arguments, whatever it
    computes; [None] is its exception. *)
Definition solver := fmatrix -> fvec -> option fvec.

(** The vector returned on line 113: the chart call and the prints of
    lines 85-111 read [x] and do not change it. *)
Definition returned (solve : solver) (psy : psychro) (i : inputs)
  : ECS.error + fvec :=
  match system psy i with
  | inl e => inl e
  | inr (A, b) =>
      match solve A b with
      | Some x => inr x
      | None => inl ECS.LinAlgError
      end
  end.

(** The rational number a finite float stands for (0 for the others). *)
Definition exact (f : float) : Q :=
  match Prim2SF f with
  | S754_finite s m e =>
      Qred ((if s then -1 else 1) * (Zpos m # 1) * Qpower 2 e)
  | _ => 0%Q
  end.

(** Two inputs without recirculation that differ in the turbine-exit
    temperature only, by one unit in the last place; the turbine air is
    dry. *)
Definition dry_a : inputs :=
  {| m_fresh := 1; α := 1; θS := 18; θIsp := 24; φIsp := 0.5;
     θ_turb := 4.113; φ_turb := 0; θ_ext := 35; Qsa := 500; Qla := 200 |}.
Definition dry_b : inputs :=
  {| m_fresh := 1; α := 1; θS := 18; θIsp := 24; φIsp := 0.5;
     θ_turb := 4.1129999999999995; φ_turb := 0; θ_ext := 35;
     Qsa := 500; Qla := 200 |}.

End ECS64.

(** The rational input with the values of [ECS64.dry_a]. *)
Definition dry_exact : inputs :=
  {| m_fresh := num 1; α := 1; θS := num 18; θIsp := num 24;
     φIsp := frac 1 2; θ_turb := frac 4113 1000; φ_turb := 0;
     θ_ext := num 35; Qsa := num 500; Qla := num 200 |}.

(** ** Facts about the solver *)

Lemma dot_nil_r (r : vec) : dot r [] = 0.
Proof. destruct r; reflexivity. Qed.

Lemma dot_zeros_r (r : vec) (n : nat) : dot r (zeros n) = 0.
Proof.
  revert n; induction r as [|a r IH]; intros [|n]; simpl; trivial.
  rewrite IH. ring.
Qed.

Lemma dot_sub_scaled (a : Qc) (t tp z : vec) :
  length t = length tp ->
  dot (sub_scaled a t tp) z = dot t z - a * dot tp z.
Proof.
  revert tp z; induction t as [|x t IH]; intros [|y tp] z Hlen;
    simpl in *; try discriminate.
  - ring.
  - destruct z as [|b z]; [ring|].
    rewrite IH by lia. ring.
Qed.

Lemma length_sub_scaled (a : Qc) (t tp : vec) :
  length t = length tp -> length (sub_scaled a t tp) = length t.
Proof.
  revert tp; induction t as [|x t IH]; intros [|y tp] Hlen;
    simpl in *; try discriminate; auto.
Qed.

Lemma dot_app_last (tp xs : vec) (t : Qc) :
  length tp = S (length xs) ->
  dot tp (xs ++ [t]) = dot tp xs + last tp 0 * t.
Proof.
  revert tp; induction xs as [|x xs IH]; intros tp Hlen.
  - destruct tp as [|a [|? ?]]; try discriminate. simpl. ring.
  - destruct tp as [|a tp]; try discriminate.
    simpl in Hlen. injection Hlen as Hlen.
    change (dot (a :: tp) ((x :: xs) ++ [t])) with (a * x + dot tp (xs ++ [t])).
    rewrite IH by exact Hlen.
    destruct tp as [|a' tp]; [discriminate|].
    change (last (a :: a' :: tp) 0) with (last (a' :: tp) 0).
    simpl dot. ring.
Qed.

Lemma dot_app_snoc (r v : vec) (c t : Qc) :
  length r = length v ->
  dot (r ++ [c]) (v ++ [t]) = dot r v + c * t.
Proof.
  revert v; induction r as [|a r IH]; intros [|b v] Hlen;
    simpl in *; try discriminate.
  - ring.
  - rewrite IH by lia. ring.
Qed.

Lemma Qcabs_0 : Qcabs.Qcabs 0 = 0.
Proof. apply Qc_is_canon. reflexivity. Qed.

Lemma Qc_abs_lt_zero_r (a : Qc) : Qc_abs_lt a 0 = false.
Proof.
  unfold Qc_abs_lt.
  destruct (Qcabs.Qcabs a ?= Qcabs.Qcabs 0) eqn:E; trivial.
  apply Qclt_alt in E. rewrite Qcabs_0 in E.
  exfalso. exact (Qclt_not_le _ _ E (Qcabs.Qcabs_nonneg a)).
Qed.

Lemma Qc_abs_lt_zero_l (b : Qc) : Qc_abs_lt 0 b = false -> b = 0.
Proof.
  unfold Qc_abs_lt. rewrite Qcabs_0. intros H.
  apply Qcabs.Qcabs_null. apply Qcle_antisym; [|apply Qcabs.Qcabs_nonneg].
  apply Qcle_alt. intros E.
  assert (E' : (0 ?= Qcabs.Qcabs b) = Lt).
  { unfold Qccompare in *. rewrite <- Qcompare_antisym, E. reflexivity. }
  rewrite E' in H. discriminate.
Qed.

Lemma pivot_perm (rs : list vec) : forall r p o,
  pivot r rs = (p, o) -> Permutation (p :: o) (r :: rs).
Proof.
  induction rs as [|r' rs IH]; intros r p o H; simpl in H.
  - injection H as <- <-. apply Permutation_refl.
  - destruct (Qc_abs_lt (hd 0 r) (hd 0 r')).
    + destruct (pivot r' rs) as [p' o'] eqn:E. injection H as <- <-.
      apply IH in E.
      eapply perm_trans; [apply perm_swap|]. apply perm_skip. exact E.
    + destruct (pivot r rs) as [p' o'] eqn:E. injection H as <- <-.
      apply IH in E.
      eapply perm_trans; [apply perm_swap|].
      eapply perm_trans; [apply perm_skip; exact E|]. apply perm_swap.
Qed.

Lemma pivot_zero (rs : list vec) : forall r p o,
  pivot r rs = (p, o) -> hd 0 p = 0 ->
  Forall (fun r0 => hd 0 r0 = 0) (r :: rs).
Proof.
  induction rs as [|r' rs IH]; intros r p o H Hp; simpl in H.
  - injection H as <- <-. constructor; auto.
  - destruct (Qc_abs_lt (hd 0 r) (hd 0 r')) eqn:Hlt.
    + destruct (pivot r' rs) as [p' o'] eqn:E. injection H as <- <-.
      specialize (IH _ _ _ E Hp).
      assert (Hr' : hd 0 r' = 0) by (inversion IH; assumption).
      rewrite Hr', Qc_abs_lt_zero_r in Hlt. discriminate.
    + destruct (pivot r rs) as [p' o'] eqn:E. injection H as <- <-.
      specialize (IH _ _ _ E Hp).
      inversion IH as [|? ? Hr Hrs]; subst.
      constructor; [assumption|]. constructor; [|assumption].
      rewrite Hr in Hlt. apply Qc_abs_lt_zero_l; assumption.
Qed.

Lemma Qc_eq_bool_false (a b : Qc) : Qc_eq_bool a b = false -> a <> b.
Proof. unfold Qc_eq_bool. destruct (Qc_eq_dec a b); [discriminate|auto]. Qed.

Lemma Qc_eq_bool_true (a b : Qc) : Qc_eq_bool a b = true -> a = b.
Proof. apply Qc_eq_bool_correct. Qed.

Lemma Qc_eq_bool_refl (a : Qc) : Qc_eq_bool a a = true.
Proof. unfold Qc_eq_bool. destruct (Qc_eq_dec a a); [reflexivity|contradiction]. Qed.

Lemma Qc_eq_bool_neq (a b : Qc) : a <> b -> Qc_eq_bool a b = false.
Proof. unfold Qc_eq_bool. destruct (Qc_eq_dec a b); [contradiction|reflexivity]. Qed.

(** One elimination step does not change what a row says about a vector
    that already satisfies the pivot row. *)
Lemma eliminate_dot (p r : vec) (z0 : Qc) (z : vec) :
  length p = length r -> hd 0 p <> 0 ->
  dot p (z0 :: z) = 0 ->
  dot (eliminate p r) z = dot r (z0 :: z).
Proof.
  destruct p as [|hp tp]; [intros _ H; elim H; reflexivity|].
  destruct r as [|h t]; [discriminate|].
  unfold eliminate; simpl. intros Hlen Hhp Hp.
  rewrite dot_sub_scaled by lia.
  assert (E : dot tp z = - (hp * z0)).
  { transitivity ((hp * z0 + dot tp z) - hp * z0); [ring|].
    rewrite Hp. ring. }
  rewrite E. field. exact Hhp.
Qed.

Lemma length_eliminate (p r : vec) :
  length p = length r -> length (eliminate p r) = pred (length r).
Proof.
  intros H. unfold eliminate. rewrite length_sub_scaled.
  - destruct r; reflexivity.
  - destruct p, r; simpl in *; try discriminate; lia.
Qed.

Lemma shaped_pivot (n : nat) (r : vec) (rs : list vec) (p : vec) (o : list vec) :
  shaped (S n) (r :: rs) -> pivot r rs = (p, o) ->
  length p = S (S n) /\ length o = n /\
  Forall (fun r0 => length r0 = S (S n)) o.
Proof.
  intros [Hn Hl] Hpiv. apply pivot_perm in Hpiv.
  assert (Hl' := Permutation_Forall (Permutation_sym Hpiv) Hl).
  apply Permutation_length in Hpiv. simpl in *.
  inversion Hl'; subst. repeat split; auto; lia.
Qed.

Lemma shaped_eliminate (n : nat) (p : vec) (o : list vec) :
  length p = S (S n) -> length o = n ->
  Forall (fun r0 => length r0 = S (S n)) o ->
  shaped n (map (eliminate p) o).
Proof.
  intros Hp Ho Hl. split; [rewrite length_map; exact Ho|].
  apply Forall_map. eapply Forall_impl; [|exact Hl].
  intros a Ha. simpl in Ha. rewrite length_eliminate; [rewrite Ha|]; simpl; congruence.
Qed.

Lemma orth_eliminate (n : nat) (p : vec) (o : list vec) (z0 : Qc) (z : vec) :
  length p = S (S n) -> Forall (fun r0 => length r0 = S (S n)) o ->
  hd 0 p <> 0 -> orth (z0 :: z) p ->
  (Forall (orth z) (map (eliminate p) o) <-> Forall (orth (z0 :: z)) o).
Proof.
  intros Hp Hl Hhp Hop. rewrite Forall_map.
  rewrite !Forall_forall. rewrite Forall_forall in Hl.
  split; intros H r Hr; specialize (H r Hr); specialize (Hl r Hr);
    unfold orth in *;
    [rewrite <- (eliminate_dot p r z0 z) | rewrite (eliminate_dot p r z0 z)];
    auto; congruence.
Qed.

(** When elimination succeeds, its result is the one and only solution
    of the augmented system. *)
Lemma gauss_some (n : nat) : forall rows x,
  shaped n rows -> gauss n rows = Some x ->
  length x = n /\
  forall v, length v = n -> (Forall (orth (v ++ [Qcopp 1])) rows <-> v = x).
Proof.
  induction n as [|n IH]; intros rows x Hs Hg.
  - simpl in Hg. injection Hg as <-. destruct Hs as [Hn _].
    destruct rows; [|discriminate]. split; [reflexivity|].
    intros [|? ?] Hv; [|discriminate]. split; auto.
  - destruct rows as [|r rs]; [destruct Hs; discriminate|].
    simpl in Hg. destruct (pivot r rs) as [p o] eqn:Hpiv.
    destruct (Qc_eq_bool (hd 0 p) 0) eqn:Hz; [discriminate|].
    apply Qc_eq_bool_false in Hz.
    destruct (gauss n (map (eliminate p) o)) as [xs|] eqn:Hrec; [|discriminate].
    injection Hg as <-.
    destruct (shaped_pivot _ _ _ _ _ Hs Hpiv) as (Hp & Ho & Hl).
    destruct (IH _ _ (shaped_eliminate _ _ _ Hp Ho Hl) Hrec) as [Hxs Huniq].
    split; [simpl; congruence|].
    assert (Hperm := pivot_perm _ _ _ _ Hpiv).
    destruct p as [|hp tp]; [discriminate|]. simpl in Hz, Hp.
    assert (Hlast : last (hp :: tp) 0 = last tp 0)
      by (destruct tp; [discriminate|reflexivity]).
    simpl tl. simpl hd. rewrite Hlast.
    intros [|v0 v] Hv; [discriminate|]. simpl in Hv.
    assert (Hpdot : forall a, dot (hp :: tp) ((a :: v) ++ [Qcopp 1])
                              = hp * a + (dot tp v - last tp 0)).
    { intros a. simpl. rewrite dot_app_last by lia. ring. }
    split.
    + intros Hall.
      apply (Permutation_Forall (Permutation_sym Hperm)) in Hall.
      apply Forall_cons_iff in Hall. destruct Hall as [Hop Hoo].
      assert (Hv' : v = xs).
      { apply Huniq; [lia|].
        apply (orth_eliminate n (hp :: tp) o v0 (v ++ [Qcopp 1])); auto. }
      subst v. f_equal.
      unfold orth in Hop. rewrite Hpdot in Hop.
      assert (E : hp * v0 = last tp 0 - dot tp xs).
      { transitivity ((hp * v0 + (dot tp xs - last tp 0)) + (last tp 0 - dot tp xs));
          [ring|]. rewrite Hop. ring. }
      rewrite <- E. field. exact Hz.
    + intros E. injection E as -> ->.
      assert (Hop : orth (((last tp 0 - dot tp xs) / hp :: xs) ++ [Qcopp 1]) (hp :: tp)).
      { unfold orth. rewrite Hpdot. field. exact Hz. }
      apply (Permutation_Forall Hperm). constructor; [exact Hop|].
      apply (orth_eliminate n (hp :: tp) o _ (xs ++ [Qcopp 1])); auto.
      apply Huniq; auto.
Qed.

Lemma zeros_snoc (n : nat) : zeros n ++ [0] = zeros (S n).
Proof. unfold zeros. symmetry. apply repeat_cons. Qed.

(** When elimination fails, the homogeneous system has a solution that
    is not zero. *)
Lemma gauss_none (n : nat) : forall rows,
  shaped n rows -> gauss n rows = None ->
  exists u, length u = n /\ u <> zeros n /\ Forall (orth (u ++ [0])) rows.
Proof.
  induction n as [|n IH]; intros rows Hs Hg; [discriminate|].
  destruct rows as [|r rs]; [destruct Hs; discriminate|].
  simpl in Hg. destruct (pivot r rs) as [p o] eqn:Hpiv.
  destruct (shaped_pivot _ _ _ _ _ Hs Hpiv) as (Hp & Ho & Hl).
  destruct (Qc_eq_bool (hd 0 p) 0) eqn:Hz.
  - apply Qc_eq_bool_true in Hz.
    exists (1 :: zeros n). split; [simpl; unfold zeros; rewrite repeat_length; reflexivity|].
    split; [intros E; discriminate E|].
    assert (Hheads := pivot_zero _ _ _ _ Hpiv Hz).
    destruct Hs as [_ Hlen]. rewrite Forall_forall in *.
    intros a Ha. specialize (Hheads a Ha). specialize (Hlen a Ha).
    destruct a as [|h t]; [discriminate|]. simpl in Hheads. subst h.
    unfold orth. simpl. rewrite zeros_snoc, dot_zeros_r. ring.
  - apply Qc_eq_bool_false in Hz.
    destruct (gauss n (map (eliminate p) o)) as [xs|] eqn:Hrec; [discriminate|].
    destruct (IH _ (shaped_eliminate _ _ _ Hp Ho Hl) Hrec) as (u & Hu & Hnz & Hall).
    assert (Hperm := pivot_perm _ _ _ _ Hpiv).
    destruct p as [|hp tp]; [discriminate|]. simpl in Hz.
    set (u0 := - dot tp (u ++ [0]) / hp).
    assert (Hop : orth (u0 :: u ++ [0]) (hp :: tp)).
    { unfold orth, u0. simpl. field. exact Hz. }
    exists (u0 :: u). split; [simpl; congruence|].
    split; [intros E; injection E as _ E; exact (Hnz E)|].
    apply (Permutation_Forall Hperm). constructor; [exact Hop|].
    apply (orth_eliminate n (hp :: tp) o u0 (u ++ [0])); auto.
Qed.

Lemma shaped_augment (n : nat) (A : matrix) : forall b,
  length A = length b -> Forall (fun r => length r = n) A ->
  length (augment A b) = length A /\
  Forall (fun r => length r = S n) (augment A b).
Proof.
  induction A as [|r A IH]; intros [|c b] Hb Hl; simpl in *; try discriminate.
  - split; auto.
  - apply Forall_cons_iff in Hl. destruct Hl as [Hr Hl].
    destruct (IH b) as [H1 H2]; [lia|assumption|].
    split; [lia|]. constructor; [|assumption].
    rewrite length_app. simpl. lia.
Qed.

Lemma orth_augment (n : nat) (v : vec) (t : Qc) (A : matrix) : forall b,
  length v = n -> length A = length b -> Forall (fun r => length r = n) A ->
  (Forall (orth (v ++ [t])) (augment A b) <->
   matvec A v = map (fun c => - (c * t)) b).
Proof.
  intros b Hv. revert b.
  induction A as [|r A IH]; intros [|c b] Hb Hl; simpl in *; try discriminate.
  - split; auto.
  - apply Forall_cons_iff in Hl. destruct Hl as [Hr Hl].
    rewrite Forall_cons_iff. rewrite (IH b) by (auto; lia).
    unfold orth. rewrite dot_app_snoc by congruence.
    split.
    + intros [H1 H2]. f_equal; [|exact H2].
      transitivity ((dot r v + c * t) - c * t); [ring|]. rewrite H1. ring.
    + intros H. injection H as H1 H2. split; [|exact H2]. rewrite H1. ring.
Qed.

Lemma map_neg_neg (b : vec) : map (fun c => - (c * Qcopp 1)) b = b.
Proof.
  induction b as [|c b IH]; simpl; [reflexivity|]. rewrite IH. f_equal. ring.
Qed.

Lemma map_neg_zero (b : vec) : map (fun c => - (c * 0)) b = zeros (length b).
Proof.
  unfold zeros. induction b as [|c b IH]; simpl; [reflexivity|].
  rewrite IH. f_equal. ring.
Qed.

Lemma length_vadd (x u : vec) : length x = length u -> length (vadd x u) = length x.
Proof.
  revert u; induction x as [|a x IH]; intros [|b u] H; simpl in *;
    try discriminate; auto.
Qed.

Lemma dot_vadd (r x u : vec) :
  length x = length u -> dot r (vadd x u) = dot r x + dot r u.
Proof.
  revert x u; induction r as [|a r IH]; intros [|b x] [|d u] H;
    simpl in *; try discriminate; try ring.
  rewrite IH by lia. ring.
Qed.

Lemma vadd_cancel (x u : vec) :
  length x = length u -> vadd x u = x -> u = zeros (length u).
Proof.
  revert u; induction x as [|a x IH]; intros [|b u] H E;
    simpl in *; try discriminate; auto.
  injection E as E1 E2. unfold zeros in *. simpl. f_equal; [|apply IH; auto].
  transitivity ((a + b) - a); [ring|]. rewrite E1. ring.
Qed.

Lemma matvec_vadd (A : matrix) (x u : vec) :
  length x = length u ->
  matvec A u = zeros (length A) -> matvec A (vadd x u) = matvec A x.
Proof.
  intros Hlen. induction A as [|r A IH]; simpl; [reflexivity|].
  intros H. injection H as H1 H2. f_equal; [|apply IH; exact H2].
  rewrite dot_vadd, H1 by exact Hlen. ring.
Qed.

Section Solve.

Variables (n : nat) (A : matrix) (b : vec).
Hypothesis HA : square n A.
Hypothesis Hb : length b = n.

(** What [solve] returns solves the system. *)
Lemma solve_sound (x : vec) :
  solve A b = Some x -> length x = n /\ matvec A x = b.
Proof.
  destruct HA as [Hn Hl]. unfold solve. intros Hg.
  destruct (shaped_augment n A b) as [S1 S2]; [congruence|assumption|].
  rewrite Hn in *.
  destruct (gauss_some n _ x (conj S1 S2) Hg) as [Hx Hu].
  split; [exact Hx|].
  rewrite <- (map_neg_neg b).
  apply (orth_augment n x (Qcopp 1) A b); auto; try congruence.
  apply Hu; auto.
Qed.

(** It is the only vector that does. *)
Lemma solve_unique (x v : vec) :
  solve A b = Some x -> length v = n -> matvec A v = b -> v = x.
Proof.
  destruct HA as [Hn Hl]. unfold solve. intros Hg Hv Hsol.
  destruct (shaped_augment n A b) as [S1 S2]; [congruence|assumption|].
  rewrite Hn in *.
  destruct (gauss_some n _ x (conj S1 S2) Hg) as [Hx Hu].
  apply Hu; [exact Hv|].
  apply (orth_augment n v (Qcopp 1) A b); auto; try congruence.
  rewrite map_neg_neg. exact Hsol.
Qed.

(** It fails only on a singular matrix. *)
Lemma solve_total : nonsingular A -> exists x, solve A b = Some x.
Proof.
  destruct HA as [Hn Hl]. intros Hns.
  destruct (solve A b) as [x|] eqn:Hg; [eauto|]. exfalso.
  unfold solve in Hg.
  destruct (shaped_augment n A b) as [S1 S2]; [congruence|assumption|].
  rewrite Hn in *.
  destruct (gauss_none n _ (conj S1 S2) Hg) as (u & Hu & Hnz & Hall).
  apply Hnz. rewrite <- Hn. apply Hns; [congruence|].
  rewrite Hn, <- Hb, <- map_neg_zero.
  apply (orth_augment n u 0 A b); auto; congruence.
Qed.

(** And it succeeds only on a nonsingular one. *)
Lemma solve_nonsingular (x : vec) : solve A b = Some x -> nonsingular A.
Proof.
  intros Hg u Hu Hker.
  destruct (solve_sound x Hg) as [Hx Hsol].
  destruct HA as [Hn Hl].
  assert (Hxu : length x = length u) by congruence.
  assert (E : vadd x u = x).
  { apply (solve_unique x _ Hg).
    - rewrite length_vadd; auto.
    - rewrite matvec_vadd; auto. }
  rewrite <- Hu. apply (vadd_cancel x u Hxu E).
Qed.

End Solve.

(** ** Facts about the program *)

Lemma truediv_zero (a b : Qc) : b = 0 -> truediv a b = raise ZeroDivisionError.
Proof. intros ->. unfold truediv. rewrite Qc_eq_bool_refl. reflexivity. Qed.

Lemma truediv_ok (a b : Qc) : b <> 0 -> truediv a b = ret (a / b).
Proof. intros H. unfold truediv. rewrite Qc_eq_bool_neq by exact H. reflexivity. Qed.

Lemma Qcminus_eq_0 (a b : Qc) : a - b = 0 <-> a = b.
Proof.
  split; intros H.
  - transitivity ((a - b) + b); [ring|]. rewrite H. ring.
  - rewrite H. ring.
Qed.

Lemma derived_alpha_zero (i : inputs) :
  α i = 0 -> derived i = raise ZeroDivisionError.
Proof. intros H. unfold derived. rewrite truediv_zero by exact H. reflexivity. Qed.

Lemma derived_theta_eq (i : inputs) :
  θ_ext i = θIsp i -> derived i = raise ZeroDivisionError.
Proof.
  intros H. unfold derived, truediv.
  destruct (Qc_eq_bool (α i) 0); [reflexivity|].
  cbn [bind ret raise app].
  assert (E : θ_ext i - θIsp i = 0) by (apply Qcminus_eq_0; exact H).
  rewrite E, Qc_eq_bool_refl. reflexivity.
Qed.

Lemma derived_ok (i : inputs) :
  α i <> 0 -> θ_ext i <> θIsp i ->
  derived i = ret (m_of i, QsZ_of i, UA_of i).
Proof.
  intros Ha Ht. unfold derived.
  rewrite truediv_ok by exact Ha. cbn [bind ret app].
  rewrite truediv_ok by (rewrite Qcminus_eq_0; exact Ht).
  reflexivity.
Qed.

(** The assembled arrays, entry by entry. *)
Lemma assemble_eq (i : inputs) (m UA wt ws : Qc) :
  assemble i m UA wt ws =
  ([[m * c; 0; 0; 0; 0; 0; -(1 - α i) * m * c; 0; 0; 0; 0; 0];
    [0; m * l; 0; 0; 0; 0; 0; -(1 - α i) * m * l; 0; 0; 0; 0];
    [m * c; 0; -m * c; 0; 0; 0; 0; 0; 1; 0; 0; 0];
    [0; m * l; 0; -m * l; 0; 0; 0; 0; 0; 0; 0; 0];
    [0; 0; m * c; 0; -m * c; 0; 0; 0; 0; 0; 0; 0];
    [0; 0; 0; m * l; 0; -m * l; 0; 0; 0; 1; 0; 0];
    [0; 0; 0; 0; m * c; 0; -m * c; 0; 0; 0; 1; 0];
    [0; 0; 0; 0; 0; m * l; 0; -m * l; 0; 0; 0; 1];
    [0; 0; 0; 0; 0; 0; UA; 0; 0; 0; 1; 0];
    [0; 0; 0; 0; 0; 0; 0; 0; 0; 0; 0; 1];
    [0; 0; 0; 0; 0; 0; Kt; 0; 1; 0; 0; 0];
    [0; 0; 0; 0; 0; 0; 0; Kw; 0; 1; 0; 0]],
   [α i * m * c * θ_turb i; α i * m * l * wt; 0; 0; 0; 0; 0; 0;
    UA * θ_ext i + Qsa i; Qla i; Kt * θIsp i; Kw * ws]).
Proof. reflexivity. Qed.

(** The coefficient matrix does not depend on the humidity function. *)
Lemma ECS_A_indep (psy psy' : psychro) (i : inputs) : ECS_A psy i = ECS_A psy' i.
Proof. reflexivity. Qed.

Lemma ECS_A_square (psy : psychro) (i : inputs) : square 12 (ECS_A psy i).
Proof.
  unfold ECS_A, system. rewrite assemble_eq. cbn [fst]. split; [reflexivity|].
  repeat constructor.
Qed.

Lemma ECS_b_length (psy : psychro) (i : inputs) : length (ECS_b psy i) = 12%nat.
Proof. reflexivity. Qed.

(** A run on inputs whose two divisions are defined. *)
Lemma ModelECS_run (psy : psychro) (i : inputs) :
  α i <> 0 -> θ_ext i <> θIsp i ->
  ModelECS psy i =
  match solve (ECS_A psy i) (ECS_b psy i) with
  | Some x => (report psy i x, inr x)
  | None => ([], inl LinAlgError)
  end.
Proof.
  intros Ha Ht. unfold ModelECS. rewrite derived_ok by assumption.
  cbn [bind ret app]. unfold ECS_A, ECS_b, system, w_turb_of, wIsp_of.
  destruct (assemble i (m_of i) (UA_of i) (psy_w psy (θ_turb i) (φ_turb i))
              (psy_w psy (θIsp i) (φIsp i))) as [A b].
  cbn [fst snd]. unfold linalg_solve.
  destruct (solve A b) as [x|]; reflexivity.
Qed.

Lemma ModelECS_div_error (psy : psychro) (i : inputs) :
  α i = 0 \/ θ_ext i = θIsp i ->
  ModelECS psy i = ([], inl ZeroDivisionError).
Proof.
  intros H. unfold ModelECS.
  assert (E : derived i = raise ZeroDivisionError)
    by (destruct H; [apply derived_alpha_zero | apply derived_theta_eq]; assumption).
  rewrite E. reflexivity.
Qed.

Ltac by_row H := etransitivity; [|exact H]; ring.

Lemma cons_inv {T : Type} (a b : T) (xs ys : list T) :
  a :: xs = b :: ys -> a = b /\ xs = ys.
Proof.
  intros H. split; [exact (f_equal (hd a) H) | exact (f_equal (@tl T) H)].
Qed.

Ltac rows H :=
  repeat (let Hr := fresh "R" in apply cons_inv in H; destruct H as [Hr H]).

Lemma system_balances (psy : psychro) (i : inputs)
    (x0 x1 x2 x3 x4 x5 x6 x7 x8 x9 x10 x11 : Qc) :
  matvec (ECS_A psy i) [x0; x1; x2; x3; x4; x5; x6; x7; x8; x9; x10; x11]
    = ECS_b psy i <->
  balances i (m_of i) (UA_of i) (w_turb_of psy i) (wIsp_of psy i)
           x0 x1 x2 x3 x4 x5 x6 x7 x8 x9 x10 x11.
Proof.
  unfold ECS_A, ECS_b, system. rewrite assemble_eq. cbn [fst snd matvec map dot].
  unfold balances. split.
  - intros H.
    rows H.
    repeat split.
    by_row R.
    by_row R0.
    by_row R1. by_row R2. by_row R3. by_row R4. by_row R5. by_row R6.
    by_row R7. by_row R8. by_row R9. by_row R10.
  - intros ((H0 & H1) & (H2 & H3) & (H4 & H5) & (H6 & H7) & (H8 & H9) & (H10 & H11)).
    repeat (apply (f_equal2 (@cons Qc));
      [first [by_row H0|by_row H1|by_row H2|by_row H3|by_row H4|by_row H5
             |by_row H6|by_row H7|by_row H8|by_row H9|by_row H10|by_row H11]|]).
    reflexivity.
Qed.

Lemma length12 (x : vec) :
  length x = 12%nat ->
  exists x0 x1 x2 x3 x4 x5 x6 x7 x8 x9 x10 x11,
    x = [x0; x1; x2; x3; x4; x5; x6; x7; x8; x9; x10; x11].
Proof.
  intros H.
  do 12 (destruct x as [|? x]; [discriminate|]).
  destruct x; [|discriminate].
  do 12 eexists. reflexivity.
Qed.

(** A successful run: both divisions were defined, the solve returned
    the result, and the trace is the report on it. *)
Lemma ModelECS_success (psy : psychro) (i : inputs) (x : vec) :
  outcome (ModelECS psy i) = inr x ->
  α i <> 0 /\ θ_ext i <> θIsp i /\
  solve (ECS_A psy i) (ECS_b psy i) = Some x /\
  trace (ModelECS psy i) = report psy i x.
Proof.
  intros H.
  destruct (Qc_eq_dec (α i) 0) as [Ha|Ha].
  { rewrite ModelECS_div_error in H by (left; exact Ha). discriminate. }
  destruct (Qc_eq_dec (θ_ext i) (θIsp i)) as [Ht|Ht].
  { rewrite ModelECS_div_error in H by (right; exact Ht). discriminate. }
  rewrite ModelECS_run in * by assumption.
  destruct (solve (ECS_A psy i) (ECS_b psy i)) as [y|]; [|discriminate].
  cbn [outcome snd] in H. injection H as ->. auto.
Qed.

(** On a nonsingular system the run succeeds, and its result satisfies
    the system. *)
Lemma ModelECS_solved (psy : psychro) (i : inputs) :
  α i <> 0 -> θ_ext i <> θIsp i -> nonsingular (ECS_A psy i) ->
  exists x,
    ModelECS psy i = (report psy i x, inr x) /\ length x = 12%nat /\
    matvec (ECS_A psy i) x = ECS_b psy i.
Proof.
  intros Ha Ht Hns.
  destruct (solve_total 12 _ (ECS_b psy i) (ECS_A_square psy i)
              (ECS_b_length psy i) Hns) as [x Hx].
  exists x. rewrite ModelECS_run, Hx by assumption.
  split; [reflexivity|].
  apply (solve_sound 12 _ _ (ECS_A_square psy i) (ECS_b_length psy i)); exact Hx.
Qed.

(** A nonsingular system has a mass flow that is not zero: otherwise
    the column of unknown 0 vanishes. *)
Lemma nonsingular_m (psy : psychro) (i : inputs) :
  nonsingular (ECS_A psy i) -> m_of i <> 0.
Proof.
  intros Hns Hm.
  specialize (Hns (1 :: zeros 11)).
  assert (E : (1 :: zeros 11) = zeros (length (ECS_A psy i))).
  { apply Hns; [reflexivity|].
    unfold ECS_A, system. rewrite assemble_eq, Hm.
    cbn [fst matvec map dot length zeros repeat].
    repeat (apply (f_equal2 (@cons Qc)); [ring|]). reflexivity. }
  discriminate E.
Qed.

Lemma Kt_nonzero : Kt <> 0.
Proof. intros H. discriminate H. Qed.

Lemma Kw_nonzero : Kw <> 0.
Proof. intros H. discriminate H. Qed.

Lemma c_nonzero : c <> 0.
Proof. intros H. discriminate H. Qed.

Lemma l_nonzero : l <> 0.
Proof. intros H. discriminate H. Qed.

Lemma Qcmult_nonzero (a b : Qc) : a <> 0 -> b <> 0 -> a * b <> 0.
Proof. intros Ha Hb H. destruct (Qcmult_integral _ _ H); contradiction. Qed.

Section Balances.

Variables (i : inputs) (m UA wt ws : Qc).
Variables (x0 x1 x2 x3 x4 x5 x6 x7 x8 x9 x10 x11 : Qc).
Hypothesis Hbal : balances i m UA wt ws x0 x1 x2 x3 x4 x5 x6 x7 x8 x9 x10 x11.

Lemma balances_latent_load : x11 = Qla i.
Proof. apply Hbal. Qed.

Lemma balances_temperature_offset : x6 - θIsp i = - (x8 / Kt).
Proof.
  destruct Hbal as (_ & _ & _ & _ & _ & (H10 & _)).
  assert (E : x8 = Kt * θIsp i - Kt * x6) by (rewrite <- H10; ring).
  rewrite E. field. exact Kt_nonzero.
Qed.

Lemma balances_humidity_offset : x7 - ws = - (x9 / Kw).
Proof.
  destruct Hbal as (_ & _ & _ & _ & _ & (_ & H11)).
  assert (E : x9 = Kw * ws - Kw * x7) by (rewrite <- H11; ring).
  rewrite E. field. exact Kw_nonzero.
Qed.

Lemma balances_mixing_temperature :
  m <> 0 -> x0 = α i * θ_turb i + (1 - α i) * x6.
Proof.
  intros Hm. destruct Hbal as ((H0 & _) & _).
  assert (Hmc : m * c <> 0) by (apply Qcmult_nonzero; [exact Hm|exact c_nonzero]).
  assert (E : (m * c) * (x0 - (α i * θ_turb i + (1 - α i) * x6)) = 0).
  { transitivity ((m * c * x0 - (1 - α i) * m * c * x6) - α i * m * c * θ_turb i);
      [ring|]. rewrite H0. ring. }
  apply (Qcmult_integral_l _ _ Hmc) in E. apply Qcminus_eq_0. exact E.
Qed.

Lemma balances_mixing_humidity :
  m <> 0 -> x1 = α i * wt + (1 - α i) * x7.
Proof.
  intros Hm. destruct Hbal as ((_ & H1) & _).
  assert (Hml : m * l <> 0) by (apply Qcmult_nonzero; [exact Hm|exact l_nonzero]).
  assert (E : (m * l) * (x1 - (α i * wt + (1 - α i) * x7)) = 0).
  { transitivity ((m * l * x1 - (1 - α i) * m * l * x7) - α i * m * l * wt);
      [ring|]. rewrite H1. ring. }
  apply (Qcmult_integral_l _ _ Hml) in E. apply Qcminus_eq_0. exact E.
Qed.

(** Adding up the six sensible rows removes every unknown but the
    zone-exit temperature. *)
Lemma balances_zone_temperature :
  x6 * (UA + α i * m * c + Kt)
  = UA * θ_ext i + Qsa i + α i * m * c * θ_turb i + Kt * θIsp i.
Proof.
  destruct Hbal as ((H0 & _) & (H2 & _) & (H4 & _) & (H6 & _) & (H8 & _) & (H10 & _)).
  rewrite <- H8, <- H10, <- H0.
  transitivity
    (UA * x6 + x10 + (m * c * x0 - (1 - α i) * m * c * x6) + (Kt * x6 + x8)
     - (m * c * x0 - m * c * x2 + x8) - (m * c * x2 - m * c * x4)
     - (m * c * x4 - m * c * x6 + x10)); [ring|].
  rewrite H2, H4, H6. ring.
Qed.

End Balances.

Lemma solvable_nonsingular (psy : psychro) (i : inputs) :
  solvable psy i = true -> nonsingular (ECS_A psy i).
Proof.
  unfold solvable. destruct (solve (ECS_A psy i) (ECS_b psy i)) as [x|] eqn:E;
    [intros _|discriminate].
  exact (solve_nonsingular 12 _ _ (ECS_A_square psy i) (ECS_b_length psy i) x E).
Qed.

Lemma nth_matvec (A : matrix) (x : vec) (k : nat) :
  nth k (matvec A x) 0 = dot (nth k A []) x.
Proof. exact (map_nth (fun r => dot r x) A [] k). Qed.

Lemma Qclt_nonzero (a : Qc) : 0 < a -> a <> 0.
Proof. intros H E. apply (Qclt_not_eq _ _ H). symmetry. exact E. Qed.

(** On a nonsingular system, the result of the run and the balances it
    satisfies. *)
Lemma ModelECS_balanced (psy : psychro) (i : inputs) :
  α i <> 0 -> θ_ext i <> θIsp i -> nonsingular (ECS_A psy i) ->
  exists x0 x1 x2 x3 x4 x5 x6 x7 x8 x9 x10 x11,
    ModelECS psy i
    = (report psy i [x0; x1; x2; x3; x4; x5; x6; x7; x8; x9; x10; x11],
       inr [x0; x1; x2; x3; x4; x5; x6; x7; x8; x9; x10; x11]) /\
    balances i (m_of i) (UA_of i) (w_turb_of psy i) (wIsp_of psy i)
             x0 x1 x2 x3 x4 x5 x6 x7 x8 x9 x10 x11.
Proof.
  intros Ha Ht Hns.
  destruct (ModelECS_solved psy i Ha Ht Hns) as (x & Hrun & Hlen & Hsol).
  destruct (length12 x Hlen)
    as (x0 & x1 & x2 & x3 & x4 & x5 & x6 & x7 & x8 & x9 & x10 & x11 & ->).
  exists x0, x1, x2, x3, x4, x5, x6, x7, x8, x9, x10, x11.
  split; [exact Hrun|]. apply system_balances. exact Hsol.
Qed.

Lemma abs_offset (a : Qc) : Qcabs.Qcabs (- (a / Kt)) = Qcabs.Qcabs a * / Kt.
Proof.
  rewrite Qcabs.Qcabs_opp. unfold Qcdiv. rewrite Qcabs.Qcabs_Qcmult.
  f_equal. apply Qcabs.Qcabs_pos. vm_compute. discriminate.
Qed.

Lemma offset_small_iff (a : Qc) :
  Qcabs.Qcabs (- (a / Kt)) < eps <-> Qcabs.Qcabs a < duty_limit.
Proof.
  rewrite abs_offset.
  assert (E1 : eps * Kt = duty_limit) by (apply Qc_is_canon; reflexivity).
  assert (E2 : duty_limit * / Kt = eps) by (apply Qc_is_canon; reflexivity).
  assert (HK : 0 < Kt) by reflexivity.
  assert (HK' : 0 < / Kt) by reflexivity.
  split; intros H.
  - apply (Qcmult_lt_compat_r _ _ Kt HK) in H. rewrite E1 in H.
    replace (Qcabs.Qcabs a * / Kt * Kt) with (Qcabs.Qcabs a) in H; [exact H|].
    field. exact Kt_nonzero.
  - apply (Qcmult_lt_compat_r _ _ (/ Kt) HK') in H. rewrite E2 in H. exact H.
Qed.

Lemma heavy_nonsingular (psy : psychro) : nonsingular (ECS_A psy heavy).
Proof.
  rewrite (ECS_A_indep psy psy_demo heavy).
  apply solvable_nonsingular. vm_compute. reflexivity.
Qed.

(** A singular system at work: with no fresh air the run ends in
    LinAlgError and has emitted nothing. *)
Example stalled_run :
  ModelECS psy_demo stalled = ([], inl LinAlgError).
Proof. vm_compute. reflexivity. Qed.

(** ** The claims *)

(** C1: for every input with 0 < α <= 1, θ_ext <> θIsp and a nonsingular
    assembled matrix, ModelECS returns a 12-element vector x with
    A x = b: every one of the 12 assembled equations holds, with zero
    residual. *)
Theorem C1_solution_satisfies_system (psy : psychro) (i : inputs) :
  0 < α i -> α i <= 1 -> θ_ext i <> θIsp i -> nonsingular (ECS_A psy i) ->
  exists x,
    outcome (ModelECS psy i) = inr x /\ length x = 12%nat /\
    matvec (ECS_A psy i) x = ECS_b psy i /\
    forall k, (k < 12)%nat -> row_holds (ECS_A psy i) (ECS_b psy i) k x.
Proof.
  intros Ha0 _ Ht Hns.
  destruct (ModelECS_solved psy i (Qclt_nonzero _ Ha0) Ht Hns) as (x & Hrun & Hlen & Hsol).
  exists x. rewrite Hrun. repeat split; auto.
  intros k _. unfold row_holds. rewrite <- Hsol. symmetry. apply nth_matvec.
Qed.

Lemma C1_witness :
  exists x,
    outcome (ModelECS psy_demo nominal) = inr x /\ length x = 12%nat /\
    matvec (ECS_A psy_demo nominal) x = ECS_b psy_demo nominal /\
    forall k, (k < 12)%nat ->
              row_holds (ECS_A psy_demo nominal) (ECS_b psy_demo nominal) k x.
Proof.
  apply (C1_solution_satisfies_system psy_demo nominal).
  - reflexivity.
  - vm_compute. discriminate.
  - vm_compute. discriminate.
  - apply solvable_nonsingular. vm_compute. reflexivity.
Defined.

(** C2 (as amended): row 9 of the assembled system has coefficient 0 on
    unknown 7 and coefficient 1 on unknown 11, zero elsewhere, with
    constant Qla; unknown 7 does not appear in it, and the row says
    x[11] = Qla and nothing else. *)
Theorem C2_latent_envelope_row (psy : psychro) (i : inputs) :
  nth 9 (ECS_A psy i) [] = [0; 0; 0; 0; 0; 0; 0; 0; 0; 0; 0; 1] /\
  nth 9 (ECS_b psy i) 0 = Qla i /\
  ~ appears (ECS_A psy i) 9 7 /\ appears (ECS_A psy i) 9 11 /\
  forall x, row_holds (ECS_A psy i) (ECS_b psy i) 9 x <-> nth 11 x 0 = Qla i.
Proof.
  unfold appears, coeff, row_holds, ECS_A, ECS_b, system.
  rewrite assemble_eq. cbn [fst snd nth].
  split; [reflexivity|]. split; [reflexivity|].
  split; [intros H; apply H; reflexivity|].
  split; [intros H; discriminate H|].
  intros x.
  assert (E : dot [0; 0; 0; 0; 0; 0; 0; 0; 0; 0; 0; 1] x = nth 11 x 0).
  { do 11 (destruct x as [|? x]; [cbn [dot nth]; ring|]).
    destruct x as [|? x]; cbn [dot nth]; [ring|].
    rewrite dot_nil_r || idtac. destruct x; ring. }
  rewrite E. tauto.
Qed.

Lemma C2_counterexample :
  ~ (appears (ECS_A psy_demo nominal) 9 7 /\
     appears (ECS_A psy_demo nominal) 9 11 /\
     nth 9 (ECS_b psy_demo nominal) 0 = Qla nominal).
Proof.
  intros [H _]. apply H. reflexivity.
Qed.

(** C3 (as amended): in exact arithmetic, on every valid input with a
    nonsingular assembled matrix the solved zone-exit state misses its
    setpoint by the controller duty over the gain,
    x[6] - θIsp = -x[8]/1e10 and x[7] - wIsp = -x[9]/1e10; so each is
    within 1e-6 of its setpoint exactly when the magnitude of that duty
    is below 1e4. *)
Theorem C3_controller_offsets (psy : psychro) (i : inputs) :
  0 < α i -> α i <= 1 -> θ_ext i <> θIsp i -> nonsingular (ECS_A psy i) ->
  exists x,
    outcome (ModelECS psy i) = inr x /\
    nth 6 x 0 - θIsp i = - (nth 8 x 0 / Kt) /\
    nth 7 x 0 - wIsp_of psy i = - (nth 9 x 0 / Kw) /\
    (Qcabs.Qcabs (nth 6 x 0 - θIsp i) < eps
       <-> Qcabs.Qcabs (nth 8 x 0) < duty_limit) /\
    (Qcabs.Qcabs (nth 7 x 0 - wIsp_of psy i) < eps
       <-> Qcabs.Qcabs (nth 9 x 0) < duty_limit).
Proof.
  intros Ha0 _ Ht Hns.
  destruct (ModelECS_balanced psy i (Qclt_nonzero _ Ha0) Ht Hns)
    as (x0 & x1 & x2 & x3 & x4 & x5 & x6 & x7 & x8 & x9 & x10 & x11 & Hrun & Hbal).
  eexists. rewrite Hrun. split; [reflexivity|]. cbn [nth].
  assert (E6 := balances_temperature_offset _ _ _ _ _ _ _ _ _ _ _ _ _ _ _ _ _ Hbal).
  assert (E7 := balances_humidity_offset _ _ _ _ _ _ _ _ _ _ _ _ _ _ _ _ _ Hbal).
  repeat split; try assumption.
  - rewrite E6. apply offset_small_iff.
  - rewrite E6. apply offset_small_iff.
  - rewrite E7. apply (offset_small_iff x9).
  - rewrite E7. apply (offset_small_iff x9).
Qed.

Lemma C3_witness :
  exists x,
    outcome (ModelECS psy_demo heavy) = inr x /\
    nth 6 x 0 - θIsp heavy = - (nth 8 x 0 / Kt) /\
    nth 7 x 0 - wIsp_of psy_demo heavy = - (nth 9 x 0 / Kw) /\
    (Qcabs.Qcabs (nth 6 x 0 - θIsp heavy) < eps
       <-> Qcabs.Qcabs (nth 8 x 0) < duty_limit) /\
    (Qcabs.Qcabs (nth 7 x 0 - wIsp_of psy_demo heavy) < eps
       <-> Qcabs.Qcabs (nth 9 x 0) < duty_limit).
Proof.
  apply (C3_controller_offsets psy_demo heavy).
  - reflexivity.
  - vm_compute. discriminate.
  - vm_compute. discriminate.
  - apply solvable_nonsingular. vm_compute. reflexivity.
Defined.

(** C3 as stated fails: at twice the nominal fresh air flow the input is
    valid and the matrix nonsingular, yet whatever the humidity function
    the solved zone-exit temperature is more than 1e-6 away from θIsp. *)
Lemma C3_counterexample :
  (0 < α heavy /\ α heavy <= 1 /\ θ_ext heavy <> θIsp heavy) /\
  forall psy,
    nonsingular (ECS_A psy heavy) /\
    exists x, outcome (ModelECS psy heavy) = inr x /\
              eps < Qcabs.Qcabs (nth 6 x 0 - θIsp heavy).
Proof.
  assert (Ha : α heavy <> 0) by (vm_compute; discriminate).
  assert (Ht : θ_ext heavy <> θIsp heavy) by (vm_compute; discriminate).
  split.
  { split; [reflexivity|]. split; [vm_compute; discriminate|exact Ht]. }
  intros psy. split; [apply heavy_nonsingular|].
  destruct (ModelECS_balanced psy heavy Ha Ht (heavy_nonsingular psy))
    as (x0 & x1 & x2 & x3 & x4 & x5 & x6 & x7 & x8 & x9 & x10 & x11 & Hrun & Hbal).
  eexists. rewrite Hrun. split; [reflexivity|]. cbn [nth].
  assert (H6 := balances_zone_temperature _ _ _ _ _ _ _ _ _ _ _ _ _ _ _ _ _ Hbal).
  set (D := UA_of heavy + α heavy * m_of heavy * c + Kt) in H6.
  set (N := UA_of heavy * θ_ext heavy + Qsa heavy
            + α heavy * m_of heavy * c * θ_turb heavy + Kt * θIsp heavy) in H6.
  assert (HD : D <> 0) by (vm_compute; discriminate).
  assert (E6 : x6 = N / D) by (rewrite <- H6; field; exact HD).
  rewrite E6. vm_compute. reflexivity.
Qed.

(** C4 (as amended): in exact arithmetic, on every valid input with a
    nonsingular assembled matrix the solved mixing-box outlet state is
    the average of the turbine-exit state and the zone-exit state with
    weights α and 1 - α; when α = 1 it is the turbine-exit state itself:
    x[0] = θ_turb and x[1] = w(θ_turb, φ_turb). *)
Theorem C4_mixing_box (psy : psychro) (i : inputs) :
  0 < α i -> α i <= 1 -> θ_ext i <> θIsp i -> nonsingular (ECS_A psy i) ->
  exists x,
    outcome (ModelECS psy i) = inr x /\
    nth 0 x 0 = α i * θ_turb i + (1 - α i) * nth 6 x 0 /\
    nth 1 x 0 = α i * psy_w psy (θ_turb i) (φ_turb i) + (1 - α i) * nth 7 x 0 /\
    (α i = 1 ->
     nth 0 x 0 = θ_turb i /\ nth 1 x 0 = psy_w psy (θ_turb i) (φ_turb i)).
Proof.
  intros Ha0 _ Ht Hns.
  destruct (ModelECS_balanced psy i (Qclt_nonzero _ Ha0) Ht Hns)
    as (x0 & x1 & x2 & x3 & x4 & x5 & x6 & x7 & x8 & x9 & x10 & x11 & Hrun & Hbal).
  assert (Hm := nonsingular_m psy i Hns).
  assert (E0 := balances_mixing_temperature _ _ _ _ _ _ _ _ _ _ _ _ _ _ _ _ _ Hbal Hm).
  assert (E1 := balances_mixing_humidity _ _ _ _ _ _ _ _ _ _ _ _ _ _ _ _ _ Hbal Hm).
  unfold w_turb_of in E1.
  eexists. rewrite Hrun. split; [reflexivity|]. cbn [nth].
  split; [exact E0|]. split; [exact E1|].
  intros H1. rewrite E0, E1, H1. split; ring.
Qed.

Lemma C4_witness :
  exists x,
    outcome (ModelECS psy_demo no_recirc) = inr x /\
    nth 0 x 0 = α no_recirc * θ_turb no_recirc
                + (1 - α no_recirc) * nth 6 x 0 /\
    nth 1 x 0 = α no_recirc * psy_w psy_demo (θ_turb no_recirc) (φ_turb no_recirc)
                + (1 - α no_recirc) * nth 7 x 0 /\
    (α no_recirc = 1 ->
     nth 0 x 0 = θ_turb no_recirc /\
     nth 1 x 0 = psy_w psy_demo (θ_turb no_recirc) (φ_turb no_recirc)).
Proof.
  apply (C4_mixing_box psy_demo no_recirc).
  - reflexivity.
  - vm_compute. discriminate.
  - vm_compute. discriminate.
  - apply solvable_nonsingular. vm_compute. reflexivity.
Defined.

Ltac float_neq :=
  let H := fresh in
  intros H;
  match type of H with
  | ?a = _ => apply (f_equal (PrimFloat.eqb a)) in H
  end;
  vm_compute in H; discriminate H.

(** C4 as stated fails in binary64: [ECS64.dry_a] and [ECS64.dry_b]
    are valid inputs with α = 1 whose turbine-exit temperatures differ,
    yet for every humidity function that gives the dry turbine air the
    same humidity ratio at both they assemble to the same arrays (the
    product 1000 θ_turb rounds to 4113 for both), and the matrix, read
    exactly, is nonsingular.  So whatever the solver computes from the
    arrays, it returns the same vector for both inputs, and x[0] cannot
    be the turbine-exit temperature of both. *)
Lemma C4_counterexample :
  (ECS64.α ECS64.dry_a = 1%float /\ ECS64.α ECS64.dry_b = 1%float /\
   ECS64.θ_ext ECS64.dry_a <> ECS64.θIsp ECS64.dry_a /\
   ECS64.θ_ext ECS64.dry_b <> ECS64.θIsp ECS64.dry_b /\
   ECS64.θ_turb ECS64.dry_a <> ECS64.θ_turb ECS64.dry_b) /\
  (forall psy, exists A b,
     ECS64.system psy ECS64.dry_a = inr (A, b) /\
     map (map ECS64.exact) A = map (map this) (ECS_A psy_dry dry_exact)) /\
  nonsingular (ECS_A psy_dry dry_exact) /\
  (forall (solve : ECS64.solver) psy x x',
     ECS64.psy_w psy (ECS64.θ_turb ECS64.dry_a) (ECS64.φ_turb ECS64.dry_a)
     = ECS64.psy_w psy (ECS64.θ_turb ECS64.dry_b) (ECS64.φ_turb ECS64.dry_b) ->
     ECS64.returned solve psy ECS64.dry_a = inr x ->
     ECS64.returned solve psy ECS64.dry_b = inr x' ->
     ECS64.system psy ECS64.dry_a = ECS64.system psy ECS64.dry_b /\
     x = x' /\
     ~ (nth 0 x 0%float = ECS64.θ_turb ECS64.dry_a /\
        nth 0 x' 0%float = ECS64.θ_turb ECS64.dry_b)).
Proof.
  assert (Hab : ECS64.θ_turb ECS64.dry_a <> ECS64.θ_turb ECS64.dry_b)
    by float_neq.
  split.
  { split; [reflexivity|]. split; [reflexivity|].
    split; [float_neq|]. split; [float_neq|exact Hab]. }
  split.
  { intros psy. eexists. eexists.
    split; [vm_compute; reflexivity|]. vm_compute. reflexivity. }
  split.
  { apply solvable_nonsingular. vm_compute. reflexivity. }
  intros solve psy x x' Hw Ha Hb.
  assert (Hsys : ECS64.system psy ECS64.dry_a = ECS64.system psy ECS64.dry_b).
  { vm_compute in Hw. vm_compute. rewrite Hw. reflexivity. }
  split; [exact Hsys|].
  assert (Hx : x = x').
  { unfold ECS64.returned in Ha, Hb. rewrite Hsys in Ha. rewrite Ha in Hb.
    injection Hb as Hb. exact Hb. }
  split; [exact Hx|].
  intros [H0 H0']. subst x'. apply Hab. rewrite <- H0, <- H0'. reflexivity.
Qed.

(** C5: whenever the two divisions are defined, the conductance UA the
    program computes is (QsZ - Qsa)/(θ_ext - θIsp) for the QsZ it
    computed, which is QsZ/(θ_ext - θIsp) when Qsa = 0. *)
Theorem C5_envelope_conductance (i : inputs) :
  α i <> 0 -> θ_ext i <> θIsp i ->
  exists m QsZ UA,
    derived i = ret (m, QsZ, UA) /\
    UA = (QsZ - Qsa i) / (θ_ext i - θIsp i) /\
    (Qsa i = 0 -> UA = QsZ / (θ_ext i - θIsp i)).
Proof.
  intros Ha Ht. exists (m_of i), (QsZ_of i), (UA_of i).
  split; [apply derived_ok; assumption|]. split; [reflexivity|].
  intros H. unfold UA_of. rewrite H. f_equal. ring.
Qed.

Lemma C5_witness :
  exists m QsZ UA,
    derived no_recirc = ret (m, QsZ, UA) /\
    UA = (QsZ - Qsa no_recirc) / (θ_ext no_recirc - θIsp no_recirc) /\
    (Qsa no_recirc = 0 -> UA = QsZ / (θ_ext no_recirc - θIsp no_recirc)).
Proof.
  apply (C5_envelope_conductance no_recirc).
  - vm_compute. discriminate.
  - vm_compute. discriminate.
Defined.

(** C6: when α = 0 or θ_ext = θIsp the run stops with the division
    error of the expression concerned (the quotient m_fresh/α, else the
    quotient defining UA), with nothing checked or emitted before and no
    result; on every other input both divisions return. *)
Theorem C6_division_errors (psy : psychro) (i : inputs) :
  (α i = 0 -> truediv (m_fresh i) (α i) = raise ZeroDivisionError) /\
  (α i <> 0 -> θ_ext i = θIsp i ->
   truediv (m_fresh i) (α i) = ret (m_of i) /\
   truediv (QsZ_of i - Qsa i) (θ_ext i - θIsp i) = raise ZeroDivisionError) /\
  (α i = 0 \/ θ_ext i = θIsp i ->
   ModelECS psy i = ([], inl ZeroDivisionError)) /\
  (α i <> 0 -> θ_ext i <> θIsp i ->
   truediv (m_fresh i) (α i) = ret (m_of i) /\
   truediv (QsZ_of i - Qsa i) (θ_ext i - θIsp i) = ret (UA_of i) /\
   derived i = ret (m_of i, QsZ_of i, UA_of i)).
Proof.
  split; [apply truediv_zero|].
  split.
  { intros Ha Ht. split; [apply truediv_ok; exact Ha|].
    apply truediv_zero. apply Qcminus_eq_0. exact Ht. }
  split; [apply ModelECS_div_error|].
  intros Ha Ht. split; [apply truediv_ok; exact Ha|].
  split; [|apply derived_ok; assumption].
  apply truediv_ok. rewrite Qcminus_eq_0. exact Ht.
Qed.

Lemma C6_witness :
  ModelECS psy_demo no_mixing = ([], inl ZeroDivisionError) /\
  (truediv (m_fresh nominal) (α nominal) = ret (m_of nominal) /\
   truediv (QsZ_of nominal - Qsa nominal) (θ_ext nominal - θIsp nominal)
   = ret (UA_of nominal) /\
   derived nominal = ret (m_of nominal, QsZ_of nominal, UA_of nominal)).
Proof.
  split.
  - apply (proj1 (proj2 (proj2 (C6_division_errors psy_demo no_mixing)))).
    left. reflexivity.
  - apply (proj2 (proj2 (proj2 (C6_division_errors psy_demo nominal)))).
    + vm_compute. discriminate.
    + vm_compute. discriminate.
Defined.

(** C7: a run that fails, by a division error or by a singular matrix,
    has emitted nothing: no print and no chart call precede the end of
    the solve; and a zero divisor or a singular matrix does make the run
    fail. *)
Theorem C7_no_output_on_failure (psy : psychro) (i : inputs) :
  (forall e, outcome (ModelECS psy i) = inl e -> trace (ModelECS psy i) = []) /\
  (α i = 0 \/ θ_ext i = θIsp i \/ ~ nonsingular (ECS_A psy i) ->
   exists e, ModelECS psy i = ([], inl e)).
Proof.
  split.
  - intros e H.
    destruct (Qc_eq_dec (α i) 0) as [Ha|Ha].
    { rewrite ModelECS_div_error by (left; exact Ha). reflexivity. }
    destruct (Qc_eq_dec (θ_ext i) (θIsp i)) as [Ht|Ht].
    { rewrite ModelECS_div_error by (right; exact Ht). reflexivity. }
    rewrite ModelECS_run in * by assumption.
    destruct (solve (ECS_A psy i) (ECS_b psy i)); [discriminate|reflexivity].
  - intros H.
    destruct (Qc_eq_dec (α i) 0) as [Ha|Ha].
    { exists ZeroDivisionError. apply ModelECS_div_error. left; exact Ha. }
    destruct (Qc_eq_dec (θ_ext i) (θIsp i)) as [Ht|Ht].
    { exists ZeroDivisionError. apply ModelECS_div_error. right; exact Ht. }
    destruct H as [H|[H|H]]; try contradiction.
    exists LinAlgError. rewrite ModelECS_run by assumption.
    destruct (solve (ECS_A psy i) (ECS_b psy i)) as [x|] eqn:E; [|reflexivity].
    elim H.
    exact (solve_nonsingular 12 _ _ (ECS_A_square psy i) (ECS_b_length psy i) x E).
Qed.

Lemma C7_witness :
  outcome (ModelECS psy_demo stalled) = inl LinAlgError /\
  trace (ModelECS psy_demo stalled) = [].
Proof.
  split; [vm_compute; reflexivity|].
  apply (proj1 (C7_no_output_on_failure psy_demo stalled) LinAlgError).
  vm_compute. reflexivity.
Defined.

(** C8: a run that returns x has called the chart exactly once, first of
    all its output, with the temperatures (θ_turb, x[0], x[2], x[4],
    x[6]), the unscaled humidity ratios (w_turb, x[1], x[3], x[5], x[7])
    and the fixed 4x5 incidence matrix with rows (-1,1,0,0,-1),
    (0,-1,1,0,0), (0,0,-1,1,0), (0,0,0,-1,1). *)
Theorem C8_chart_call (psy : psychro) (i : inputs) (x : vec) :
  outcome (ModelECS psy i) = inr x ->
  let call :=
    chartA [θ_turb i; nth 0 x 0; nth 2 x 0; nth 4 x 0; nth 6 x 0]
           [psy_w psy (θ_turb i) (φ_turb i);
            nth 1 x 0; nth 3 x 0; nth 5 x 0; nth 7 x 0]
           [[-1; 1; 0; 0; -1]; [0; -1; 1; 0; 0];
            [0; 0; -1; 1; 0]; [0; 0; 0; -1; 1]]%Z in
  filter is_chart (trace (ModelECS psy i)) = [call] /\
  hd_error (trace (ModelECS psy i)) = Some call.
Proof.
  intros H.
  destruct (ModelECS_success psy i x H) as (Ha & Ht & Hs & Htr).
  destruct (solve_sound 12 _ _ (ECS_A_square psy i) (ECS_b_length psy i) x Hs)
    as [Hlen _].
  destruct (length12 x Hlen)
    as (x0 & x1 & x2 & x3 & x4 & x5 & x6 & x7 & x8 & x9 & x10 & x11 & ->).
  rewrite Htr. split; reflexivity.
Qed.

Lemma C8_witness :
  exists x,
    outcome (ModelECS psy_demo nominal) = inr x /\
    let call :=
      chartA [θ_turb nominal; nth 0 x 0; nth 2 x 0; nth 4 x 0; nth 6 x 0]
             [psy_w psy_demo (θ_turb nominal) (φ_turb nominal);
              nth 1 x 0; nth 3 x 0; nth 5 x 0; nth 7 x 0]
             [[-1; 1; 0; 0; -1]; [0; -1; 1; 0; 0];
              [0; 0; -1; 1; 0]; [0; 0; 0; -1; 1]]%Z in
    filter is_chart (trace (ModelECS psy_demo nominal)) = [call] /\
    hd_error (trace (ModelECS psy_demo nominal)) = Some call.
Proof.
  eexists. split.
  - vm_compute. reflexivity.
  - apply (C8_chart_call psy_demo nominal). vm_compute. reflexivity.
Defined.

(** C9: on every input whose divisions are defined and whose assembled
    matrix is nonsingular, the solved latent zone load x[11] is Qla,
    whatever the zone-exit humidity ratio: row 9 has coefficient 0 on
    unknown 7 and 1 on unknown 11. *)
Theorem C9_latent_load (psy : psychro) (i : inputs) :
  α i <> 0 -> θ_ext i <> θIsp i -> nonsingular (ECS_A psy i) ->
  exists x,
    outcome (ModelECS psy i) = inr x /\ nth 11 x 0 = Qla i /\
    coeff (ECS_A psy i) 9 7 = 0 /\ coeff (ECS_A psy i) 9 11 = 1.
Proof.
  intros Ha Ht Hns.
  destruct (ModelECS_balanced psy i Ha Ht Hns)
    as (x0 & x1 & x2 & x3 & x4 & x5 & x6 & x7 & x8 & x9 & x10 & x11 & Hrun & Hbal).
  eexists. rewrite Hrun. split; [reflexivity|]. cbn [nth].
  split; [exact (balances_latent_load _ _ _ _ _ _ _ _ _ _ _ _ _ _ _ _ _ Hbal)|].
  split; reflexivity.
Qed.

Lemma C9_witness :
  exists x,
    outcome (ModelECS psy_demo nominal) = inr x /\ nth 11 x 0 = Qla nominal /\
    coeff (ECS_A psy_demo nominal) 9 7 = 0 /\
    coeff (ECS_A psy_demo nominal) 9 11 = 1.
Proof.
  apply (C9_latent_load psy_demo nominal).
  - vm_compute. discriminate.
  - vm_compute. discriminate.
  - apply solvable_nonsingular. vm_compute. reflexivity.
Defined.

(** C10: the zone sensible load the program derives is
    QsZ = -(m_fresh/α) c (θS - θIsp) with c = 1000, and the conductance
    it computes from it is
    UA = (-(m_fresh/α) c (θS - θIsp) - Qsa)/(θ_ext - θIsp). *)
Theorem C10_zone_sensible_load (i : inputs) :
  α i <> 0 -> θ_ext i <> θIsp i ->
  exists m QsZ UA,
    derived i = ret (m, QsZ, UA) /\
    c = num 1000 /\
    m = m_fresh i / α i /\
    QsZ = - (m_fresh i / α i) * c * (θS i - θIsp i) /\
    UA = (- (m_fresh i / α i) * c * (θS i - θIsp i) - Qsa i)
         / (θ_ext i - θIsp i).
Proof.
  intros Ha Ht. exists (m_of i), (QsZ_of i), (UA_of i).
  split; [apply derived_ok; assumption|]. repeat split.
Qed.

Lemma C10_witness :
  exists m QsZ UA,
    derived nominal = ret (m, QsZ, UA) /\
    c = num 1000 /\
    m = m_fresh nominal / α nominal /\
    QsZ = - (m_fresh nominal / α nominal) * c * (θS nominal - θIsp nominal) /\
    UA = (- (m_fresh nominal / α nominal) * c * (θS nominal - θIsp nominal)
          - Qsa nominal) / (θ_ext nominal - θIsp nominal).
Proof.
  apply (C10_zone_sensible_load nominal).
  - vm_compute. discriminate.
  - vm_compute. discriminate.
Defined.

(** ** Further properties of [ModelECS] *)

Lemma kernel_balances (psy : psychro) (i : inputs)
    (x0 x1 x2 x3 x4 x5 x6 x7 x8 x9 x10 x11 : Qc) :
  matvec (ECS_A psy i) [x0; x1; x2; x3; x4; x5; x6; x7; x8; x9; x10; x11]
    = zeros 12 ->
  balances (at_rest i) (m_of i) (UA_of i) 0 0
           x0 x1 x2 x3 x4 x5 x6 x7 x8 x9 x10 x11.
Proof.
  unfold ECS_A, system. rewrite assemble_eq.
  cbn [fst matvec map dot zeros repeat]. intros H. rows H.
  unfold balances; cbn [at_rest α θ_turb θ_ext θIsp Qsa Qla].
  repeat split;
    [transitivity 0; [by_row R|ring] | transitivity 0; [by_row R0|ring]
    |by_row R1|by_row R2|by_row R3|by_row R4|by_row R5|by_row R6
    |transitivity 0; [by_row R7|ring] | by_row R8
    |transitivity 0; [by_row R9|ring] | transitivity 0; [by_row R10|ring]].
Qed.

Lemma scaled_eq (k a b : Qc) : k <> 0 -> k * (a - b) = 0 -> a = b.
Proof.
  intros Hk H. apply (Qcmult_integral_l _ _ Hk) in H.
  apply Qcminus_eq_0. exact H.
Qed.

Section MoreBalances.

Variables (i : inputs) (m UA wt ws : Qc).
Variables (x0 x1 x2 x3 x4 x5 x6 x7 x8 x9 x10 x11 : Qc).
Hypothesis Hbal : balances i m UA wt ws x0 x1 x2 x3 x4 x5 x6 x7 x8 x9 x10 x11.

(** Adding up the six latent rows removes every unknown but the
    zone-exit humidity ratio. *)
Lemma balances_zone_humidity :
  x7 * (α i * m * l + Kw) = Kw * ws + α i * m * l * wt + Qla i.
Proof.
  destruct Hbal as ((_ & H1) & (_ & H3) & (_ & H5) & (_ & H7) & (_ & H9) & (_ & H11)).
  rewrite <- H11, <- H1, <- H9 at 1.
  transitivity
    (Kw * x7 + x9 + (m * l * x1 - (1 - α i) * m * l * x7) + x11
     - (m * l * x1 - m * l * x3) - (m * l * x3 - m * l * x5 + x9)
     - (m * l * x5 - m * l * x7 + x11)); [ring|].
  rewrite H3, H5, H7. ring.
Qed.

Hypothesis Hm : m <> 0.

Let Hmc : m * c <> 0 := Qcmult_nonzero m c Hm c_nonzero.
Let Hml : m * l <> 0 := Qcmult_nonzero m l Hm l_nonzero.

Lemma balances_coil_temperature : x2 = x0 + x8 / (m * c).
Proof.
  destruct Hbal as (_ & (H2 & _) & _).
  apply (scaled_eq (m * c)); [exact Hmc|].
  transitivity (- (m * c * x0 - m * c * x2 + x8)); [field; split; [exact c_nonzero|exact Hm]|].
  rewrite H2. ring.
Qed.

Lemma balances_coil_humidity : x3 = x1.
Proof.
  destruct Hbal as (_ & (_ & H3) & _).
  apply (scaled_eq (m * l)); [exact Hml|].
  transitivity (- (m * l * x1 - m * l * x3)); [ring|]. rewrite H3. ring.
Qed.

Lemma balances_humidifier_temperature : x4 = x2.
Proof.
  destruct Hbal as (_ & _ & (H4 & _) & _).
  apply (scaled_eq (m * c)); [exact Hmc|].
  transitivity (- (m * c * x2 - m * c * x4)); [ring|]. rewrite H4. ring.
Qed.

Lemma balances_humidifier_humidity : x5 = x3 + x9 / (m * l).
Proof.
  destruct Hbal as (_ & _ & (_ & H5) & _).
  apply (scaled_eq (m * l)); [exact Hml|].
  transitivity (- (m * l * x3 - m * l * x5 + x9)); [field; split; [exact l_nonzero|exact Hm]|].
  rewrite H5. ring.
Qed.

Lemma balances_zone_temperature_step : x6 = x4 + x10 / (m * c).
Proof.
  destruct Hbal as (_ & _ & _ & (H6 & _) & _).
  apply (scaled_eq (m * c)); [exact Hmc|].
  transitivity (- (m * c * x4 - m * c * x6 + x10)); [field; split; [exact c_nonzero|exact Hm]|].
  rewrite H6. ring.
Qed.

Lemma balances_zone_humidity_step : x7 = x5 + x11 / (m * l).
Proof.
  destruct Hbal as (_ & _ & _ & (_ & H7) & _).
  apply (scaled_eq (m * l)); [exact Hml|].
  transitivity (- (m * l * x5 - m * l * x7 + x11)); [field; split; [exact l_nonzero|exact Hm]|].
  rewrite H7. ring.
Qed.

(** The two sensible duties together heat the fresh-air share of the
    flow from the turbine exit to the zone exit. *)
Lemma balances_sensible_total :
  x8 + x10 = α i * m * c * (x6 - θ_turb i).
Proof.
  destruct Hbal as ((H0 & _) & (H2 & _) & (H4 & _) & (H6 & _) & _).
  transitivity
    ((m * c * x0 - m * c * x2 + x8) + (m * c * x2 - m * c * x4)
     + (m * c * x4 - m * c * x6 + x10)
     - (m * c * x0 - (1 - α i) * m * c * x6) + α i * m * c * x6); [ring|].
  rewrite H0, H2, H4, H6. ring.
Qed.

Lemma balances_latent_total :
  x9 + x11 = α i * m * l * (x7 - wt).
Proof.
  destruct Hbal as ((_ & H1) & (_ & H3) & (_ & H5) & (_ & H7) & _).
  transitivity
    ((m * l * x1 - m * l * x3) + (m * l * x3 - m * l * x5 + x9)
     + (m * l * x5 - m * l * x7 + x11)
     - (m * l * x1 - (1 - α i) * m * l * x7) + α i * m * l * x7); [ring|].
  rewrite H1, H3, H5, H7. ring.
Qed.

End MoreBalances.

Lemma Qcmult_zero_l (a d : Qc) : d <> 0 -> a * d = 0 -> a = 0.
Proof.
  intros Hd H. destruct (Qcmult_integral _ _ H); [assumption|contradiction].
Qed.

(** The system is nonsingular as soon as the mass flow and the two
    pivots are not zero. *)
Lemma nonsingular_of_pivots (psy : psychro) (i : inputs) :
  m_of i <> 0 ->
  UA_of i + α i * m_of i * c + Kt <> 0 ->
  α i * m_of i * l + Kw <> 0 ->
  nonsingular (ECS_A psy i).
Proof.
  intros Hm HD1 HD2 u Hu Hker.
  destruct (ECS_A_square psy i) as [Hlen _]. rewrite Hlen in *.
  destruct (length12 u Hu)
    as (x0 & x1 & x2 & x3 & x4 & x5 & x6 & x7 & x8 & x9 & x10 & x11 & ->).
  apply kernel_balances in Hker.
  assert (E6 := balances_zone_temperature _ _ _ _ _ _ _ _ _ _ _ _ _ _ _ _ _ Hker).
  assert (E7 := balances_zone_humidity _ _ _ _ _ _ _ _ _ _ _ _ _ _ _ _ _ Hker).
  assert (E0 := balances_mixing_temperature _ _ _ _ _ _ _ _ _ _ _ _ _ _ _ _ _ Hker Hm).
  assert (E1 := balances_mixing_humidity _ _ _ _ _ _ _ _ _ _ _ _ _ _ _ _ _ Hker Hm).
  assert (E2 := balances_coil_temperature _ _ _ _ _ _ _ _ _ _ _ _ _ _ _ _ _ Hker Hm).
  assert (E3 := balances_coil_humidity _ _ _ _ _ _ _ _ _ _ _ _ _ _ _ _ _ Hker Hm).
  assert (E4 := balances_humidifier_temperature _ _ _ _ _ _ _ _ _ _ _ _ _ _ _ _ _ Hker Hm).
  assert (E5 := balances_humidifier_humidity _ _ _ _ _ _ _ _ _ _ _ _ _ _ _ _ _ Hker Hm).
  destruct Hker as (_ & _ & _ & _ & (H8 & H9) & (H10 & H11)).
  cbn [at_rest α θ_turb θ_ext θIsp Qsa Qla] in *.
  assert (Z6 : x6 = 0).
  { apply (Qcmult_zero_l _ _ HD1). rewrite E6. ring. }
  assert (Z7 : x7 = 0).
  { apply (Qcmult_zero_l _ _ HD2). rewrite E7. ring. }
  assert (Z0 : x0 = 0) by (rewrite E0, Z6; ring).
  assert (Z1 : x1 = 0) by (rewrite E1, Z7; ring).
  assert (Z8 : x8 = 0).
  { transitivity (Kt * x6 + x8 - Kt * x6); [ring|]. rewrite H10, Z6. ring. }
  assert (Z9 : x9 = 0).
  { transitivity (Kw * x7 + x9 - Kw * x7); [ring|]. rewrite H11, Z7. ring. }
  assert (Z10 : x10 = 0).
  { transitivity (UA_of i * x6 + x10 - UA_of i * x6); [ring|].
    rewrite H8, Z6. ring. }
  assert (Z2 : x2 = 0) by (rewrite E2, Z0, Z8; unfold Qcdiv; ring).
  assert (Z3 : x3 = 0) by (rewrite E3; exact Z1).
  assert (Z4 : x4 = 0) by (rewrite E4; exact Z2).
  assert (Z5 : x5 = 0) by (rewrite E5, Z3, Z9; unfold Qcdiv; ring).
  unfold zeros; cbn [repeat].
  repeat (apply (f_equal2 (@cons Qc)); [assumption|]). reflexivity.
Qed.

(** Conversely each of them has to be nonzero: otherwise the system has
    a solution of its homogeneous form that is not zero. *)
Lemma nonsingular_sensible_pivot (psy : psychro) (i : inputs) :
  nonsingular (ECS_A psy i) -> UA_of i + α i * m_of i * c + Kt <> 0.
Proof.
  intros Hns HD.
  assert (Hm := nonsingular_m psy i Hns).
  set (m := m_of i) in *. set (UA := UA_of i) in *.
  specialize (Hns [m * c * (1 - α i); 0; m * c * (1 - α i) - Kt; 0;
                   m * c * (1 - α i) - Kt; 0; m * c; 0; - (Kt * (m * c)); 0;
                   m * c * (α i * m * c + Kt); 0]).
  destruct (ECS_A_square psy i) as [Hlen _]. rewrite Hlen in Hns.
  assert (E : m * c = 0).
  { refine (f_equal (fun v => nth 6 v 0) (Hns eq_refl _)).
    unfold ECS_A, system. rewrite assemble_eq.
    cbn [fst matvec map dot zeros repeat]. fold m. fold UA.
    repeat (apply (f_equal2 (@cons Qc));
      [first [ring
             |transitivity (m * c * (UA + α i * m * c + Kt));
                [ring|rewrite HD; ring]]|]).
    reflexivity. }
  exact (Qcmult_nonzero _ _ Hm c_nonzero E).
Qed.

Lemma nonsingular_latent_pivot (psy : psychro) (i : inputs) :
  nonsingular (ECS_A psy i) -> α i * m_of i * l + Kw <> 0.
Proof.
  intros Hns HD.
  assert (Hm := nonsingular_m psy i Hns).
  set (m := m_of i) in *.
  specialize (Hns [0; m * l * (1 - α i); 0; m * l * (1 - α i); 0; m * l;
                   0; m * l; 0; m * l * (α i * m * l); 0; 0]).
  destruct (ECS_A_square psy i) as [Hlen _]. rewrite Hlen in Hns.
  assert (E : m * l = 0).
  { refine (f_equal (fun v => nth 7 v 0) (Hns eq_refl _)).
    unfold ECS_A, system. rewrite assemble_eq.
    cbn [fst matvec map dot zeros repeat]. fold m.
    repeat (apply (f_equal2 (@cons Qc));
      [first [ring
             |transitivity (m * l * (α i * m * l + Kw));
                [ring|rewrite HD; ring]]|]).
    reflexivity. }
  exact (Qcmult_nonzero _ _ Hm l_nonzero E).
Qed.

Lemma alpha_m_of (i : inputs) : α i <> 0 -> α i * m_of i = m_fresh i.
Proof. intros Ha. unfold m_of. field. exact Ha. Qed.

Lemma m_of_nonzero_iff (i : inputs) :
  α i <> 0 -> (m_of i <> 0 <-> m_fresh i <> 0).
Proof.
  intros Ha. split; intros H E; apply H.
  - unfold m_of. rewrite E. unfold Qcdiv. ring.
  - rewrite <- (alpha_m_of i Ha), E. ring.
Qed.

Lemma pivots_in_m (i : inputs) :
  α i <> 0 ->
  UA_of i + α i * m_of i * c + Kt = sensible_pivot i /\
  α i * m_of i * l + Kw = latent_pivot i.
Proof.
  intros Ha. unfold sensible_pivot, latent_pivot.
  rewrite (alpha_m_of i Ha). split; reflexivity.
Qed.

(** With both divisions defined, the system is nonsingular exactly when
    the fresh air flow and the two pivots are not zero. *)
Lemma nonsingular_iff (psy : psychro) (i : inputs) :
  α i <> 0 ->
  (nonsingular (ECS_A psy i) <->
   m_fresh i <> 0 /\ sensible_pivot i <> 0 /\ latent_pivot i <> 0).
Proof.
  intros Ha. destruct (pivots_in_m i Ha) as [P1 P2]. split.
  - intros Hns. split; [|split].
    + apply (m_of_nonzero_iff i Ha). exact (nonsingular_m psy i Hns).
    + rewrite <- P1. exact (nonsingular_sensible_pivot psy i Hns).
    + rewrite <- P2. exact (nonsingular_latent_pivot psy i Hns).
  - intros (Hm & H1 & H2). apply nonsingular_of_pivots.
    + apply (m_of_nonzero_iff i Ha). exact Hm.
    + rewrite P1. exact H1.
    + rewrite P2. exact H2.
Qed.

(** What a returned result tells: the divisions were defined, the system
    was nonsingular, and the result has twelve entries that satisfy the
    balances. *)
Lemma ModelECS_returned (psy : psychro) (i : inputs) (x : vec) :
  outcome (ModelECS psy i) = inr x ->
  α i <> 0 /\ θ_ext i <> θIsp i /\ nonsingular (ECS_A psy i) /\
  exists x0 x1 x2 x3 x4 x5 x6 x7 x8 x9 x10 x11,
    x = [x0; x1; x2; x3; x4; x5; x6; x7; x8; x9; x10; x11] /\
    balances i (m_of i) (UA_of i) (w_turb_of psy i) (wIsp_of psy i)
             x0 x1 x2 x3 x4 x5 x6 x7 x8 x9 x10 x11.
Proof.
  intros H.
  destruct (ModelECS_success psy i x H) as (Ha & Ht & Hs & _).
  destruct (solve_sound 12 _ _ (ECS_A_square psy i) (ECS_b_length psy i) x Hs)
    as [Hlen Hsol].
  split; [exact Ha|]. split; [exact Ht|].
  split;
    [exact (solve_nonsingular 12 _ _ (ECS_A_square psy i) (ECS_b_length psy i) x Hs)|].
  destruct (length12 x Hlen)
    as (x0 & x1 & x2 & x3 & x4 & x5 & x6 & x7 & x8 & x9 & x10 & x11 & ->).
  exists x0, x1, x2, x3, x4, x5, x6, x7, x8, x9, x10, x11.
  split; [reflexivity|]. apply system_balances. exact Hsol.
Qed.

(** When a run returns, in terms of the inputs. *)
Lemma ModelECS_returns_iff (psy : psychro) (i : inputs) :
  (exists x, outcome (ModelECS psy i) = inr x) <->
  (α i <> 0 /\ θ_ext i <> θIsp i /\ m_fresh i <> 0 /\
   UA_of i + m_fresh i * c + Kt <> 0 /\ m_fresh i * l + Kw <> 0).
Proof.
  split.
  - intros [x H].
    destruct (ModelECS_returned psy i x H) as (Ha & Ht & Hns & _).
    split; [exact Ha|]. split; [exact Ht|].
    apply (nonsingular_iff psy i Ha). exact Hns.
  - intros (Ha & Ht & Hrest).
    apply (nonsingular_iff psy i Ha) in Hrest.
    destruct (ModelECS_solved psy i Ha Ht Hrest) as (x & Hrun & _).
    exists x. rewrite Hrun. reflexivity.
Qed.

(** X1: ModelECS returns a result exactly when α, θ_ext - θIsp, the
    fresh air flow, UA + m_fresh c + Kt and m_fresh l + Kw are all
    different from zero. *)
Theorem X1_returns_iff (psy : psychro) (i : inputs) :
  (exists x, outcome (ModelECS psy i) = inr x) <->
  (α i <> 0 /\ θ_ext i <> θIsp i /\ m_fresh i <> 0 /\
   UA_of i + m_fresh i * c + Kt <> 0 /\ m_fresh i * l + Kw <> 0).
Proof. exact (ModelECS_returns_iff psy i). Qed.

(** X2: in exact arithmetic, the run ends in ZeroDivisionError exactly
    when α = 0 or θ_ext = θIsp, and in LinAlgError exactly when both
    divisions are defined and the fresh air flow or one of the two
    pivots is zero. *)
Theorem X2_error_kinds (psy : psychro) (i : inputs) :
  (outcome (ModelECS psy i) = inl ZeroDivisionError <->
   α i = 0 \/ θ_ext i = θIsp i) /\
  (outcome (ModelECS psy i) = inl LinAlgError <->
   α i <> 0 /\ θ_ext i <> θIsp i /\
   (m_fresh i = 0 \/ UA_of i + m_fresh i * c + Kt = 0 \/ m_fresh i * l + Kw = 0)).
Proof.
  destruct (Qc_eq_dec (α i) 0) as [Ha|Ha].
  { rewrite ModelECS_div_error by (left; exact Ha). cbn [outcome snd].
    split; split; intros H; try reflexivity; try discriminate H; try tauto. }
  destruct (Qc_eq_dec (θ_ext i) (θIsp i)) as [Ht|Ht].
  { rewrite ModelECS_div_error by (right; exact Ht). cbn [outcome snd].
    split; split; intros H; try reflexivity; try discriminate H; try tauto. }
  assert (Hiff := nonsingular_iff psy i Ha).
  rewrite ModelECS_run by assumption.
  destruct (solve (ECS_A psy i) (ECS_b psy i)) as [x|] eqn:E; cbn [outcome snd].
  - assert (Hns := solve_nonsingular 12 _ _ (ECS_A_square psy i)
                     (ECS_b_length psy i) x E).
    apply Hiff in Hns. destruct Hns as (Hm & H1 & H2).
    split; split; try discriminate; intros H; exfalso; tauto.
  - split; [split; [discriminate|tauto]|].
    split; [intros _|reflexivity].
    split; [exact Ha|]. split; [exact Ht|].
    destruct (Qc_eq_dec (m_fresh i) 0) as [Hm|Hm]; [left; exact Hm|].
    destruct (Qc_eq_dec (UA_of i + m_fresh i * c + Kt) 0) as [H1|H1];
      [right; left; exact H1|].
    destruct (Qc_eq_dec (m_fresh i * l + Kw) 0) as [H2|H2];
      [right; right; exact H2|].
    exfalso.
    assert (Hns : nonsingular (ECS_A psy i)) by (apply Hiff; auto).
    destruct (solve_total 12 _ (ECS_b psy i) (ECS_A_square psy i)
                (ECS_b_length psy i) Hns) as [x Hx].
    rewrite E in Hx. discriminate.
Qed.

(** X3: in exact arithmetic, a returned vector has twelve entries,
    satisfies the assembled system, and is the only 12-vector that
    does. *)
Theorem X3_unique_solution (psy : psychro) (i : inputs) (x : vec) :
  outcome (ModelECS psy i) = inr x ->
  length x = 12%nat /\ matvec (ECS_A psy i) x = ECS_b psy i /\
  forall y, length y = 12%nat -> matvec (ECS_A psy i) y = ECS_b psy i -> y = x.
Proof.
  intros H.
  destruct (ModelECS_success psy i x H) as (_ & _ & Hs & _).
  destruct (solve_sound 12 _ _ (ECS_A_square psy i) (ECS_b_length psy i) x Hs)
    as [Hlen Hsol].
  split; [exact Hlen|]. split; [exact Hsol|].
  intros y Hy Hysol.
  exact (solve_unique 12 _ _ (ECS_A_square psy i) (ECS_b_length psy i)
           x y Hs Hy Hysol).
Qed.

Lemma X3_witness :
  exists x,
    outcome (ModelECS psy_demo nominal) = inr x /\
    length x = 12%nat /\
    matvec (ECS_A psy_demo nominal) x = ECS_b psy_demo nominal /\
    forall y, length y = 12%nat ->
              matvec (ECS_A psy_demo nominal) y = ECS_b psy_demo nominal -> y = x.
Proof.
  eexists. split.
  - vm_compute. reflexivity.
  - apply (X3_unique_solution psy_demo nominal). vm_compute. reflexivity.
Defined.

Ltac returned H psy i x Ha Ht Hns Hbal :=
  let x0 := fresh "x0" in let x1 := fresh "x1" in let x2 := fresh "x2" in
  let x3 := fresh "x3" in let x4 := fresh "x4" in let x5 := fresh "x5" in
  let x6 := fresh "x6" in let x7 := fresh "x7" in let x8 := fresh "x8" in
  let x9 := fresh "x9" in let x10 := fresh "x10" in let x11 := fresh "x11" in
  destruct (ModelECS_returned psy i x H)
    as (Ha & Ht & Hns &
        x0 & x1 & x2 & x3 & x4 & x5 & x6 & x7 & x8 & x9 & x10 & x11 & -> & Hbal);
  cbn [nth].

Lemma Qcdiv_eq (a n d : Qc) : d <> 0 -> a * d = n -> a = n / d.
Proof. intros Hd <-. field. exact Hd. Qed.

(** The zone-exit state of a returned result, in closed form. *)
Lemma zone_exit_closed_form (psy : psychro) (i : inputs) (x : vec) :
  outcome (ModelECS psy i) = inr x ->
  nth 6 x 0
  = (UA_of i * θ_ext i + Qsa i + m_fresh i * c * θ_turb i + Kt * θIsp i)
    / (UA_of i + m_fresh i * c + Kt) /\
  nth 7 x 0
  = (Kw * psy_w psy (θIsp i) (φIsp i)
     + m_fresh i * l * psy_w psy (θ_turb i) (φ_turb i) + Qla i)
    / (m_fresh i * l + Kw).
Proof.
  intros H. returned H psy i x Ha Ht Hns Hbal.
  assert (E6 := balances_zone_temperature _ _ _ _ _ _ _ _ _ _ _ _ _ _ _ _ _ Hbal).
  assert (E7 := balances_zone_humidity _ _ _ _ _ _ _ _ _ _ _ _ _ _ _ _ _ Hbal).
  rewrite (alpha_m_of i Ha) in E6, E7.
  apply (nonsingular_iff psy i Ha) in Hns. destruct Hns as (_ & H1 & H2).
  split; apply Qcdiv_eq; assumption.
Qed.

(** X4: in exact arithmetic, the zone-exit temperature and humidity
    ratio of a returned result, in closed form in the inputs:
    x[6] = (UA θ_ext + Qsa + m_fresh c θ_turb + Kt θIsp)/(UA + m_fresh c + Kt),
    x[7] = (Kw wIsp + m_fresh l w_turb + Qla)/(m_fresh l + Kw). *)
Theorem X4_zone_exit_closed_form (psy : psychro) (i : inputs) (x : vec) :
  outcome (ModelECS psy i) = inr x ->
  nth 6 x 0
  = (UA_of i * θ_ext i + Qsa i + m_fresh i * c * θ_turb i + Kt * θIsp i)
    / (UA_of i + m_fresh i * c + Kt) /\
  nth 7 x 0
  = (Kw * psy_w psy (θIsp i) (φIsp i)
     + m_fresh i * l * psy_w psy (θ_turb i) (φ_turb i) + Qla i)
    / (m_fresh i * l + Kw).
Proof. exact (zone_exit_closed_form psy i x). Qed.

Lemma X4_witness :
  exists x,
    outcome (ModelECS psy_demo nominal) = inr x /\
    nth 6 x 0
    = (UA_of nominal * θ_ext nominal + Qsa nominal
       + m_fresh nominal * c * θ_turb nominal + Kt * θIsp nominal)
      / (UA_of nominal + m_fresh nominal * c + Kt) /\
    nth 7 x 0
    = (Kw * psy_w psy_demo (θIsp nominal) (φIsp nominal)
       + m_fresh nominal * l * psy_w psy_demo (θ_turb nominal) (φ_turb nominal)
       + Qla nominal)
      / (m_fresh nominal * l + Kw).
Proof.
  eexists. split.
  - vm_compute. reflexivity.
  - apply (X4_zone_exit_closed_form psy_demo nominal). vm_compute. reflexivity.
Defined.

(** X5: in exact arithmetic, in a returned result each stage changes
    only its own quantity, by its duty over the capacity flow: the coil
    heats by QsHC/(m c) and keeps the humidity ratio, the humidifier
    adds QlVH/(m l) and keeps the temperature, the zone adds QsTZ/(m c)
    and QlTZ/(m l), with m = m_fresh/α. *)
Theorem X5_stage_steps (psy : psychro) (i : inputs) (x : vec) :
  outcome (ModelECS psy i) = inr x ->
  (nth 2 x 0 = nth 0 x 0 + nth 8 x 0 / (m_fresh i / α i * c) /\
   nth 3 x 0 = nth 1 x 0) /\
  (nth 4 x 0 = nth 2 x 0 /\
   nth 5 x 0 = nth 3 x 0 + nth 9 x 0 / (m_fresh i / α i * l)) /\
  (nth 6 x 0 = nth 4 x 0 + nth 10 x 0 / (m_fresh i / α i * c) /\
   nth 7 x 0 = nth 5 x 0 + nth 11 x 0 / (m_fresh i / α i * l)).
Proof.
  intros H. returned H psy i x Ha Ht Hns Hbal.
  assert (Hm := nonsingular_m psy i Hns).
  fold (m_of i).
  repeat split.
  - exact (balances_coil_temperature _ _ _ _ _ _ _ _ _ _ _ _ _ _ _ _ _ Hbal Hm).
  - exact (balances_coil_humidity _ _ _ _ _ _ _ _ _ _ _ _ _ _ _ _ _ Hbal Hm).
  - exact (balances_humidifier_temperature _ _ _ _ _ _ _ _ _ _ _ _ _ _ _ _ _ Hbal Hm).
  - exact (balances_humidifier_humidity _ _ _ _ _ _ _ _ _ _ _ _ _ _ _ _ _ Hbal Hm).
  - exact (balances_zone_temperature_step _ _ _ _ _ _ _ _ _ _ _ _ _ _ _ _ _ Hbal Hm).
  - exact (balances_zone_humidity_step _ _ _ _ _ _ _ _ _ _ _ _ _ _ _ _ _ Hbal Hm).
Qed.

Lemma X5_witness :
  exists x,
    outcome (ModelECS psy_demo nominal) = inr x /\
    (nth 2 x 0 = nth 0 x 0 + nth 8 x 0 / (m_fresh nominal / α nominal * c) /\
     nth 3 x 0 = nth 1 x 0) /\
    (nth 4 x 0 = nth 2 x 0 /\
     nth 5 x 0 = nth 3 x 0 + nth 9 x 0 / (m_fresh nominal / α nominal * l)) /\
    (nth 6 x 0 = nth 4 x 0 + nth 10 x 0 / (m_fresh nominal / α nominal * c) /\
     nth 7 x 0 = nth 5 x 0 + nth 11 x 0 / (m_fresh nominal / α nominal * l)).
Proof.
  eexists. split.
  - vm_compute. reflexivity.
  - apply (X5_stage_steps psy_demo nominal). vm_compute. reflexivity.
Defined.

(** X6: in exact arithmetic, in a returned result the two sensible
    duties add up to the heat that takes the fresh air flow from the
    turbine-exit temperature to the zone-exit temperature, and the two
    latent duties to the same for the humidity ratio:
    x[8] + x[10] = m_fresh c (x[6] - θ_turb),
    x[9] + x[11] = m_fresh l (x[7] - w_turb). *)
Theorem X6_duty_totals (psy : psychro) (i : inputs) (x : vec) :
  outcome (ModelECS psy i) = inr x ->
  nth 8 x 0 + nth 10 x 0 = m_fresh i * c * (nth 6 x 0 - θ_turb i) /\
  nth 9 x 0 + nth 11 x 0
  = m_fresh i * l * (nth 7 x 0 - psy_w psy (θ_turb i) (φ_turb i)).
Proof.
  intros H. returned H psy i x Ha Ht Hns Hbal.
  rewrite <- (alpha_m_of i Ha). split.
  - exact (balances_sensible_total _ _ _ _ _ _ _ _ _ _ _ _ _ _ _ _ _ Hbal).
  - exact (balances_latent_total _ _ _ _ _ _ _ _ _ _ _ _ _ _ _ _ _ Hbal).
Qed.

Lemma X6_witness :
  exists x,
    outcome (ModelECS psy_demo nominal) = inr x /\
    nth 8 x 0 + nth 10 x 0
    = m_fresh nominal * c * (nth 6 x 0 - θ_turb nominal) /\
    nth 9 x 0 + nth 11 x 0
    = m_fresh nominal * l
      * (nth 7 x 0 - psy_w psy_demo (θ_turb nominal) (φ_turb nominal)).
Proof.
  eexists. split.
  - vm_compute. reflexivity.
  - apply (X6_duty_totals psy_demo nominal). vm_compute. reflexivity.
Defined.

(** X7: in exact arithmetic, in a returned result the sensible zone
    load is the design load QsZ less UA times the offset of the
    zone-exit temperature from its setpoint, and the supply temperature
    x[4] misses θS by that offset times 1 + UA/(m c); so if
    x[6] = θIsp then x[10] = QsZ and x[4] = θS. *)
Theorem X7_design_point (psy : psychro) (i : inputs) (x : vec) :
  outcome (ModelECS psy i) = inr x ->
  nth 10 x 0 = QsZ_of i - UA_of i * (nth 6 x 0 - θIsp i) /\
  nth 4 x 0 - θS i
  = (1 + UA_of i / (m_of i * c)) * (nth 6 x 0 - θIsp i) /\
  (nth 6 x 0 = θIsp i -> nth 10 x 0 = QsZ_of i /\ nth 4 x 0 = θS i).
Proof.
  intros H. returned H psy i x Ha Ht Hns Hbal.
  assert (Hm := nonsingular_m psy i Hns).
  assert (E6 := balances_zone_temperature_step _ _ _ _ _ _ _ _ _ _ _ _ _ _ _ _ _ Hbal Hm).
  destruct Hbal as (_ & _ & _ & _ & (H8 & _) & _).
  assert (Hd : θ_ext i - θIsp i <> 0) by (rewrite Qcminus_eq_0; exact Ht).
  assert (EU : UA_of i * (θ_ext i - θIsp i) = QsZ_of i - Qsa i)
    by (unfold UA_of; field; exact Hd).
  assert (E10 : x10 = QsZ_of i - UA_of i * (x6 - θIsp i)).
  { transitivity (UA_of i * x6 + x10 - UA_of i * x6); [ring|].
    rewrite H8.
    transitivity (UA_of i * (θ_ext i - θIsp i) + Qsa i - UA_of i * (x6 - θIsp i));
      [ring|]. rewrite EU. ring. }
  assert (E4 : x4 = x6 - x10 / (m_of i * c))
    by (rewrite E6 at 1; unfold Qcdiv; ring).
  assert (E4' : x4 - θS i = (1 + UA_of i / (m_of i * c)) * (x6 - θIsp i)).
  { rewrite E4, E10. unfold QsZ_of.
    set (UA := UA_of i). set (m := m_of i) in *.
    field. split; [exact c_nonzero|exact Hm]. }
  split; [exact E10|]. split; [exact E4'|].
  intros Hsp. split.
  - rewrite E10, Hsp. ring.
  - apply Qcminus_eq_0. rewrite E4', Hsp. ring.
Qed.

Lemma X7_witness :
  exists x,
    outcome (ModelECS psy_demo nominal) = inr x /\
    nth 10 x 0 = QsZ_of nominal - UA_of nominal * (nth 6 x 0 - θIsp nominal) /\
    nth 4 x 0 - θS nominal
    = (1 + UA_of nominal / (m_of nominal * c)) * (nth 6 x 0 - θIsp nominal) /\
    (nth 6 x 0 = θIsp nominal ->
     nth 10 x 0 = QsZ_of nominal /\ nth 4 x 0 = θS nominal).
Proof.
  eexists. split.
  - vm_compute. reflexivity.
  - apply (X7_design_point psy_demo nominal). vm_compute. reflexivity.
Defined.

(** X8: the sensible part of the result does not depend on the humidity
    function: if the run returns with one function it returns with any
    other, with the same temperatures x[0], x[2], x[4], x[6] and the
    same sensible duties x[8], x[10]. *)
Theorem X8_sensible_decoupled (psy psy' : psychro) (i : inputs) (x : vec) :
  outcome (ModelECS psy i) = inr x ->
  exists x',
    outcome (ModelECS psy' i) = inr x' /\
    nth 0 x' 0 = nth 0 x 0 /\ nth 2 x' 0 = nth 2 x 0 /\
    nth 4 x' 0 = nth 4 x 0 /\ nth 6 x' 0 = nth 6 x 0 /\
    nth 8 x' 0 = nth 8 x 0 /\ nth 10 x' 0 = nth 10 x 0.
Proof.
  intros H.
  assert (H' : exists x', outcome (ModelECS psy' i) = inr x').
  { apply ModelECS_returns_iff. apply (ModelECS_returns_iff psy i). exists x. exact H. }
  destruct H' as [x' H']. exists x'. split; [exact H'|].
  destruct (zone_exit_closed_form psy i x H) as [E6 _].
  destruct (zone_exit_closed_form psy' i x' H') as [E6' _].
  assert (S6 : nth 6 x' 0 = nth 6 x 0) by (rewrite E6, E6'; reflexivity).
  clear E6 E6'.
  destruct (ModelECS_returned psy i x H)
    as (Ha & Ht & Hns &
        x0 & x1 & x2 & x3 & x4 & x5 & x6 & x7 & x8 & x9 & x10 & x11 & -> & Hbal).
  destruct (ModelECS_returned psy' i x' H')
    as (_ & _ & _ &
        y0 & y1 & y2 & y3 & y4 & y5 & y6 & y7 & y8 & y9 & y10 & y11 & -> & Hbal').
  cbn [nth] in *. subst y6.
  assert (Hm := nonsingular_m psy i Hns).
  assert (E0 := balances_mixing_temperature _ _ _ _ _ _ _ _ _ _ _ _ _ _ _ _ _ Hbal Hm).
  assert (E0' := balances_mixing_temperature _ _ _ _ _ _ _ _ _ _ _ _ _ _ _ _ _ Hbal' Hm).
  assert (E2 := balances_coil_temperature _ _ _ _ _ _ _ _ _ _ _ _ _ _ _ _ _ Hbal Hm).
  assert (E2' := balances_coil_temperature _ _ _ _ _ _ _ _ _ _ _ _ _ _ _ _ _ Hbal' Hm).
  assert (E4 := balances_humidifier_temperature _ _ _ _ _ _ _ _ _ _ _ _ _ _ _ _ _ Hbal Hm).
  assert (E4' := balances_humidifier_temperature _ _ _ _ _ _ _ _ _ _ _ _ _ _ _ _ _ Hbal' Hm).
  destruct Hbal as (_ & _ & _ & (R6 & _) & _ & (R10 & _)).
  destruct Hbal' as (_ & _ & _ & (R6' & _) & _ & (R10' & _)).
  assert (S8 : y8 = x8).
  { transitivity (Kt * x6 + y8 - Kt * x6); [ring|]. rewrite R10', <- R10. ring. }
  assert (S0 : y0 = x0) by (rewrite E0, E0'; reflexivity).
  assert (S2 : y2 = x2) by (rewrite E2, E2', S0, S8; reflexivity).
  assert (S4 : y4 = x4) by (rewrite E4, E4'; exact S2).
  assert (S10 : y10 = x10).
  { transitivity (m_of i * c * y4 - m_of i * c * x6 + y10
                  - (m_of i * c * y4 - m_of i * c * x6)); [ring|].
    rewrite R6', S4.
    transitivity (- (m_of i * c * x4 - m_of i * c * x6 + x10) + x10); [ring|].
    rewrite R6. ring. }
  repeat split; assumption || reflexivity.
Qed.

Lemma X8_witness :
  exists x,
    outcome (ModelECS psy_demo nominal) = inr x /\
    exists x',
      outcome (ModelECS psy_dry nominal) = inr x' /\
      nth 0 x' 0 = nth 0 x 0 /\ nth 2 x' 0 = nth 2 x 0 /\
      nth 4 x' 0 = nth 4 x 0 /\ nth 6 x' 0 = nth 6 x 0 /\
      nth 8 x' 0 = nth 8 x 0 /\ nth 10 x' 0 = nth 10 x 0.
Proof.
  eexists. split.
  - vm_compute. reflexivity.
  - apply (X8_sensible_decoupled psy_demo psy_dry nominal). vm_compute. reflexivity.
Defined.

(** X9: a run that returns x has emitted, in this order: the chart call;
    an empty line; the table of the five state points, temperatures as
    charted and humidity ratios times 1000; an empty line; the four
    duties x[8..11] divided by 1000; and UA rounded to a whole number. *)
Theorem X9_console_output (psy : psychro) (i : inputs) (x : vec) :
  outcome (ModelECS psy i) = inr x ->
  let t := [θ_turb i; nth 0 x 0; nth 2 x 0; nth 4 x 0; nth 6 x 0] in
  let w := [psy_w psy (θ_turb i) (φ_turb i);
            nth 1 x 0; nth 3 x 0; nth 5 x 0; nth 7 x 0] in
  trace (ModelECS psy i)
  = [chartA t w incidence;
     print Blank;
     print (PointsTable t (map (fun v => num 1000 * v) w));
     print Blank;
     print (DutiesTable [nth 8 x 0 / num 1000; nth 9 x 0 / num 1000;
                         nth 10 x 0 / num 1000; nth 11 x 0 / num 1000]);
     print (UALine (round0 ((- (m_fresh i / α i) * c * (θS i - θIsp i) - Qsa i)
                            / (θ_ext i - θIsp i))))].
Proof.
  intros H.
  destruct (ModelECS_success psy i x H) as (Ha & Ht & Hs & Htr).
  destruct (solve_sound 12 _ _ (ECS_A_square psy i) (ECS_b_length psy i) x Hs)
    as [Hlen _].
  destruct (length12 x Hlen)
    as (x0 & x1 & x2 & x3 & x4 & x5 & x6 & x7 & x8 & x9 & x10 & x11 & ->).
  rewrite Htr. reflexivity.
Qed.

Lemma X9_witness :
  exists x,
    outcome (ModelECS psy_demo nominal) = inr x /\
    let t := [θ_turb nominal; nth 0 x 0; nth 2 x 0; nth 4 x 0; nth 6 x 0] in
    let w := [psy_w psy_demo (θ_turb nominal) (φ_turb nominal);
              nth 1 x 0; nth 3 x 0; nth 5 x 0; nth 7 x 0] in
    trace (ModelECS psy_demo nominal)
    = [chartA t w incidence;
       print Blank;
       print (PointsTable t (map (fun v => num 1000 * v) w));
       print Blank;
       print (DutiesTable [nth 8 x 0 / num 1000; nth 9 x 0 / num 1000;
                           nth 10 x 0 / num 1000; nth 11 x 0 / num 1000]);
       print (UALine (round0 ((- (m_fresh nominal / α nominal) * c
                               * (θS nominal - θIsp nominal) - Qsa nominal)
                              / (θ_ext nominal - θIsp nominal))))].
Proof.
  eexists. split.
  - vm_compute. reflexivity.
  - apply (X9_console_output psy_demo nominal). vm_compute. reflexivity.
Defined.

(** *** Rounding and signs, through the underlying fractions *)

Lemma this_plus (a b : Qc) : (this (a + b) == this a + this b)%Q.
Proof. unfold Qcplus, Q2Qc. cbn [this]. apply Qred_correct. Qed.

Lemma this_mult (a b : Qc) : (this (a * b) == this a * this b)%Q.
Proof. unfold Qcmult, Q2Qc. cbn [this]. apply Qred_correct. Qed.

Lemma this_minus_num (q : Qc) (z : Z) :
  (this (q - num z) == this q - inject_Z z)%Q.
Proof.
  unfold Qcminus, Qcplus, Qcopp, num, Q2Qc. cbn [this].
  rewrite !Qred_correct. reflexivity.
Qed.

Lemma this_abs_minus_num (q : Qc) (z : Z) :
  (this (Qcabs.Qcabs (q - num z)) == Qabs.Qabs (this q - inject_Z z))%Q.
Proof. unfold Qcabs.Qcabs. cbn [this]. rewrite this_minus_num. reflexivity. Qed.

(** [round0] returns a whole number at most one half away, the even one
    of the two when both are one half away. *)
Lemma round0_spec (q : Qc) :
  exists z : Z,
    round0 q = num z /\
    Qcabs.Qcabs (q - num z) <= Q2Qc (1 # 2) /\
    (Qcabs.Qcabs (q - num z) = Q2Qc (1 # 2) -> Z.even z = true).
Proof.
  unfold round0.
  set (f := Qround.Qfloor q).
  assert (Hlo : (inject_Z f <= this q)%Q) by apply Qround.Qfloor_le.
  assert (Hhi : (this q < inject_Z (f + 1))%Q) by apply Qround.Qlt_floor.
  rewrite inject_Z_plus in Hhi. change (inject_Z 1) with 1%Q in Hhi.
  clearbody f.
  assert (Hcmp : (q - num f ?= Q2Qc (1 # 2)) = (this q - inject_Z f ?= 1 # 2)%Q).
  { unfold Qccompare. rewrite this_minus_num. reflexivity. }
  assert (Hhalf : (this (Q2Qc (1 # 2)) == 1 # 2)%Q) by reflexivity.
  rewrite Hcmp.
  destruct (this q - inject_Z f ?= 1 # 2)%Q eqn:E.
  - apply Qeq_alt in E.
    destruct (Z.even f) eqn:Ev.
    + exists f. split; [reflexivity|]. split; [|auto].
      unfold Qcle. rewrite this_abs_minus_num, Hhalf.
      apply Qabs.Qabs_Qle_condition. lra.
    + exists (f + 1)%Z. split; [reflexivity|]. split.
      * unfold Qcle. rewrite this_abs_minus_num, Hhalf, inject_Z_plus.
        change (inject_Z 1) with 1%Q.
        apply Qabs.Qabs_Qle_condition. lra.
      * intros _. rewrite Z.add_1_r, Z.even_succ, <- Z.negb_even, Ev. reflexivity.
  - apply Qlt_alt in E. exists f. split; [reflexivity|]. split.
    + unfold Qcle. rewrite this_abs_minus_num, Hhalf.
      apply Qabs.Qabs_Qle_condition. lra.
    + intros H. exfalso. apply (f_equal this) in H.
      assert (H' : (Qabs.Qabs (this q - inject_Z f) == 1 # 2)%Q).
      { rewrite <- this_abs_minus_num, H. reflexivity. }
      rewrite Qabs.Qabs_pos in H' by lra. lra.
  - apply Qgt_alt in E. exists (f + 1)%Z. split; [reflexivity|]. split.
    + unfold Qcle. rewrite this_abs_minus_num, Hhalf, inject_Z_plus.
      change (inject_Z 1) with 1%Q.
      apply Qabs.Qabs_Qle_condition. lra.
    + intros H. exfalso. apply (f_equal this) in H.
      assert (H' : (Qabs.Qabs (this q - inject_Z (f + 1)) == 1 # 2)%Q).
      { rewrite <- this_abs_minus_num, H. reflexivity. }
      rewrite inject_Z_plus in H'. change (inject_Z 1) with 1%Q in H'.
      rewrite Qabs.Qabs_neg in H' by lra. lra.
Qed.

(** X10: the last thing a returning run prints is the UA line, and the
    number on it is a whole number at most one half away from UA, the
    even one when UA lies halfway between two whole numbers. *)
Theorem X10_printed_UA (psy : psychro) (i : inputs) (x : vec) :
  outcome (ModelECS psy i) = inr x ->
  exists z : Z,
    last (trace (ModelECS psy i)) (print Blank) = print (UALine (num z)) /\
    Qcabs.Qcabs (UA_of i - num z) <= Q2Qc (1 # 2) /\
    (Qcabs.Qcabs (UA_of i - num z) = Q2Qc (1 # 2) -> Z.even z = true).
Proof.
  intros H.
  destruct (ModelECS_success psy i x H) as (_ & _ & _ & Htr).
  destruct (round0_spec (UA_of i)) as (z & Hz & Hnear & Htie).
  exists z. rewrite Htr. unfold report. cbn [last]. rewrite Hz. auto.
Qed.

Lemma X10_witness :
  exists z : Z,
    last (trace (ModelECS psy_demo nominal)) (print Blank)
    = print (UALine (num z)) /\
    Qcabs.Qcabs (UA_of nominal - num z) <= Q2Qc (1 # 2) /\
    (Qcabs.Qcabs (UA_of nominal - num z) = Q2Qc (1 # 2) -> Z.even z = true).
Proof.
  eapply (X10_printed_UA psy_demo nominal). vm_compute. reflexivity.
Defined.

(** X11: with a positive mixing ratio, a positive fresh air flow, an
    external temperature different from the setpoint and a conductance
    UA that is not negative, the run returns a result. *)
Theorem X11_returns_on_physical_inputs (psy : psychro) (i : inputs) :
  0 < α i -> 0 < m_fresh i -> θ_ext i <> θIsp i -> 0 <= UA_of i ->
  exists x, outcome (ModelECS psy i) = inr x.
Proof.
  intros Ha Hm Ht HUA. apply ModelECS_returns_iff.
  assert (Hc : (this c == 1000)%Q) by reflexivity.
  assert (Hl : (this l == 2496000)%Q) by reflexivity.
  assert (HK : (this Kt == 10000000000)%Q) by reflexivity.
  assert (HK' : (this Kw == 10000000000)%Q) by reflexivity.
  unfold Qclt, Qcle in *. change (this 0) with 0%Q in *.
  split; [apply Qclt_nonzero; exact Ha|]. split; [exact Ht|].
  split; [apply Qclt_nonzero; exact Hm|].
  split; apply Qclt_nonzero; unfold Qclt; change (this 0) with 0%Q.
  - rewrite !this_plus, this_mult, Hc, HK. lra.
  - rewrite this_plus, this_mult, Hl, HK'. lra.
Qed.

Lemma X11_witness : exists x, outcome (ModelECS psy_demo nominal) = inr x.
Proof.
  apply (X11_returns_on_physical_inputs psy_demo nominal).
  - reflexivity.
  - reflexivity.
  - vm_compute. discriminate.
  - vm_compute. discriminate.
Defined.

(** X12: the latent part of the result does not depend on the supply
    temperature, the external temperature or the auxiliary sensible
    heat: two returning runs whose inputs agree on everything else have
    the same humidity ratios x[1], x[3], x[5], x[7] and the same latent
    duties x[9], x[11]. *)
Theorem X12_latent_decoupled (psy : psychro) (i i' : inputs) (x x' : vec) :
  m_fresh i' = m_fresh i -> α i' = α i ->
  θIsp i' = θIsp i -> φIsp i' = φIsp i ->
  θ_turb i' = θ_turb i -> φ_turb i' = φ_turb i -> Qla i' = Qla i ->
  outcome (ModelECS psy i) = inr x -> outcome (ModelECS psy i') = inr x' ->
  nth 1 x' 0 = nth 1 x 0 /\ nth 3 x' 0 = nth 3 x 0 /\
  nth 5 x' 0 = nth 5 x 0 /\ nth 7 x' 0 = nth 7 x 0 /\
  nth 9 x' 0 = nth 9 x 0 /\ nth 11 x' 0 = nth 11 x 0.
Proof.
  intros Im Ia Iθ Iφ Iθt Iφt IQ H H'.
  destruct (zone_exit_closed_form psy i x H) as [_ E7].
  destruct (zone_exit_closed_form psy i' x' H') as [_ E7'].
  rewrite Im, Iθ, Iφ, Iθt, Iφt, IQ in E7'.
  assert (S7 : nth 7 x' 0 = nth 7 x 0) by (rewrite E7, E7'; reflexivity).
  clear E7 E7'.
  destruct (ModelECS_returned psy i x H)
    as (Ha & Ht & Hns &
        x0 & x1 & x2 & x3 & x4 & x5 & x6 & x7 & x8 & x9 & x10 & x11 & -> & Hbal).
  destruct (ModelECS_returned psy i' x' H')
    as (_ & _ & Hns' &
        y0 & y1 & y2 & y3 & y4 & y5 & y6 & y7 & y8 & y9 & y10 & y11 & -> & Hbal').
  cbn [nth] in *. subst y7.
  assert (Hm := nonsingular_m psy i Hns).
  assert (Hm' := nonsingular_m psy i' Hns').
  assert (Em : m_of i' = m_of i) by (unfold m_of; rewrite Im, Ia; reflexivity).
  assert (E1 := balances_mixing_humidity _ _ _ _ _ _ _ _ _ _ _ _ _ _ _ _ _ Hbal Hm).
  assert (E1' := balances_mixing_humidity _ _ _ _ _ _ _ _ _ _ _ _ _ _ _ _ _ Hbal' Hm').
  assert (E3 := balances_coil_humidity _ _ _ _ _ _ _ _ _ _ _ _ _ _ _ _ _ Hbal Hm).
  assert (E3' := balances_coil_humidity _ _ _ _ _ _ _ _ _ _ _ _ _ _ _ _ _ Hbal' Hm').
  assert (E5 := balances_humidifier_humidity _ _ _ _ _ _ _ _ _ _ _ _ _ _ _ _ _ Hbal Hm).
  assert (E5' := balances_humidifier_humidity _ _ _ _ _ _ _ _ _ _ _ _ _ _ _ _ _ Hbal' Hm').
  destruct Hbal as (_ & _ & _ & _ & (_ & R9) & (_ & R11)).
  destruct Hbal' as (_ & _ & _ & _ & (_ & R9') & (_ & R11')).
  unfold w_turb_of, wIsp_of in *.
  rewrite Ia, Iθt, Iφt in E1'. rewrite Iθ, Iφ in R11'. rewrite Em in E5'.
  assert (S1 : y1 = x1) by (rewrite E1, E1'; reflexivity).
  assert (S3 : y3 = x3) by (rewrite E3, E3'; exact S1).
  assert (S9 : y9 = x9).
  { transitivity (Kw * x7 + y9 - Kw * x7); [ring|]. rewrite R11', <- R11. ring. }
  assert (S5 : y5 = x5) by (rewrite E5, E5', S3, S9; reflexivity).
  assert (S11 : y11 = x11) by (rewrite R9, R9'; exact IQ).
  repeat split; assumption || reflexivity.
Qed.

Lemma X12_witness :
  exists x,
    outcome (ModelECS psy_demo nominal) = inr x /\
    exists x',
      outcome (ModelECS psy_demo nominal_hot) = inr x' /\
      nth 1 x' 0 = nth 1 x 0 /\ nth 3 x' 0 = nth 3 x 0 /\
      nth 5 x' 0 = nth 5 x 0 /\ nth 7 x' 0 = nth 7 x 0 /\
      nth 9 x' 0 = nth 9 x 0 /\ nth 11 x' 0 = nth 11 x 0.
Proof.
  eexists. split; [vm_compute; reflexivity|].
  eexists. split; [vm_compute; reflexivity|].
  apply (X12_latent_decoupled psy_demo nominal nominal_hot);
    try reflexivity; vm_compute; reflexivity.
Defined.
